(** * Constraint tracking for the TileLang mid-level passes

    A shallow embedding of [src/transform/common/constraint.h],
    [constr_visitor.h] and [constr_mutator.h].

    - [Tir] is the fragment of the TIR statement/expression tree that the
      walkers inspect.
    - [Constraint] embeds [Constr] and [ConstrSet].
    - [Walk] is the state of a walker ([constr_stack_]) together with the
      scope guard returned by [MakeGuard].
    - [ConstrVisitor] and [ConstrMutator] embed the two walkers.

    Conventions.  C++ operator overloads on [PrimExpr] ([a == b], [a > 0],
    [a + b], ...) are read as the construction of the corresponding TIR
    node; TVM's constant folding inside these operators and the [dtype]
    of expressions are not modelled, so [make_zero(dtype)] is the literal
    [0].  A [std::vector] is a list in index order: [push_back] appends
    at the end and [pop_back] removes the last element. *)

From stdpp Require Import base strings list gmap.
From Stdlib Require Import ZArith.

Set Default Proof Using "Type".

(* ===================================================================== *)
(** ** The TIR fragment                                                   *)
(* ===================================================================== *)

Module Tir.

(** [tir::Var]: variables are compared by object identity in TVM;
    [var_id] stands for the address of the [VarNode], [name_hint] is only
    a label. *)
Record Var := mkVar { var_id : nat; name_hint : string }.

(** The binary arithmetic, comparison and logical nodes. *)
Inductive BinaryOp :=
| Add | Sub | Mul | EQ | NE | LT | LE | GT | GE | And | Or.

#[warnings="-register-all"] Inductive PrimExpr :=
| EVar (v : Var)
| IntImm (value : Z)
| StringImm (value : string)
| Binary (op : BinaryOp) (a b : PrimExpr)
| Not (a : PrimExpr)
| Select (condition true_value false_value : PrimExpr)
| Call (op : string) (args : list PrimExpr).

(** [Range::FromMinExtent(min, extent)]. *)
Record Range := FromMinExtent { min : PrimExpr; extent : PrimExpr }.

Record IterVar := mkIterVar { var : Var; thread_tag : string }.

(** The payload [op->node] of an attribute statement is an untyped object
    reference; the walkers [Downcast] it. *)
Inductive ObjectRef :=
| ObjPrimExpr (e : PrimExpr)
| ObjIterVar (iv : IterVar)
| ObjString (s : string).

(** Modelled from the spec: the string constants of [tir::attr] are
    declared outside the three headers.  The walkers recognise exactly
    three keys (the assume annotation and the thread / virtual-thread
    extent annotations); every other key is [other_key]. *)
Inductive AttrKey :=
| tilelang_assume
| thread_extent
| virtual_thread
| other_key (key : string).

Inductive ForKind :=
| kSerial | kParallel | kVectorized | kUnrolled | kThreadBinding.

#[warnings="-register-all"] Inductive Stmt :=
| LetStmt (v : Var) (value : PrimExpr) (body : Stmt)
| AttrStmt (node : ObjectRef) (attr_key : AttrKey) (value : PrimExpr)
           (body : Stmt)
| AssertStmt (condition message : PrimExpr) (body : Stmt)
| IfThenElse (condition : PrimExpr) (then_case : Stmt)
             (else_case : option Stmt)
| For (loop_var : Var) (min extent : PrimExpr) (kind : ForKind)
      (body : Stmt) (thread_binding : option IterVar)
      (annotations : list (string * PrimExpr))
| While (condition : PrimExpr) (body : Stmt)
| SeqStmt (seq : list Stmt)
| Evaluate (value : PrimExpr).

(** The name under which [Op::Get] registers the lazy conditional. *)
Definition op_if_then_else : string := "tir.if_then_else".

Definition make_zero : PrimExpr := IntImm 0.

End Tir.

Import Tir.

Declare Scope tir_scope.
Delimit Scope tir_scope with tir.
Notation "a == b" := (Binary EQ a b) (at level 70, no associativity) : tir_scope.
Notation "a >= b" := (Binary GE a b) : tir_scope.
Notation "a < b" := (Binary LT a b) : tir_scope.
Notation "a > b" := (Binary GT a b) : tir_scope.
Notation "a + b" := (Binary Add a b) : tir_scope.
Notation "a - b" := (Binary Sub a b) : tir_scope.

(* ===================================================================== *)
(** ** constraint.h                                                       *)
(* ===================================================================== *)

(** The provability engine [arith::Analyzer], consumed through the four
    entry points the constraint layer calls.  Each entry point acts on the
    internal state [A] of one analyzer object. *)
Class ArithAnalyzer (A : Type) := {
  analyzer_new : A;
  EnterConstraint : PrimExpr → A → A;
  Bind_value : Var → PrimExpr → A → A;
  Bind_range : Var → Range → A → A;
  analyzer_CanProve : PrimExpr → A → bool * A;
}.

(** [tir::Substitute] over an [ffi::Map<tir::Var, PrimExpr>]. *)
Class Substitution (VarMap : Type) :=
  tir_Substitute : PrimExpr → VarMap → PrimExpr.

Module Constraint.

Inductive Kind := kConstr | kBindValue | kBindRange.

(** [struct Constr].  The struct is a hand-written tagged union: each of
    its three constructors sets [kind] and the fields that [kind] reads.
    [Constr_expr e a] is [Constr(PrimExpr constr, bool is_assume)],
    [Constr_value v e] is [Constr(tir::Var var, PrimExpr val)] and
    [Constr_range v r] is [Constr(tir::Var var, Range range)]. *)
Inductive Constr :=
| Constr_expr (constr : PrimExpr) (is_assume : bool)
| Constr_value (v : Var) (val : PrimExpr)
| Constr_range (v : Var) (range : Range).

Definition kind (c : Constr) : Kind :=
  match c with
  | Constr_expr _ _ => kConstr
  | Constr_value _ _ => kBindValue
  | Constr_range _ _ => kBindRange
  end.

(** [bool is_assume = false] unless the first constructor sets it. *)
Definition is_assume (c : Constr) : bool :=
  match c with
  | Constr_expr _ a => a
  | _ => false
  end.

Definition ToGenericConstr (c : Constr) : PrimExpr :=
  match c with
  | Constr_expr value _ => value
  | Constr_value v value => (EVar v == value)%tir
  | Constr_range v range =>
      Binary And (EVar v >= min range)%tir
                 (EVar v < (min range + extent range))%tir
  end.

Definition Substitute `{Substitution VarMap} (c : Constr) (subs : VarMap)
  : Constr :=
  Constr_expr (tir_Substitute (ToGenericConstr c) subs) false.

(** [struct ConstrSet]. *)
Record ConstrSet := mkConstrSet { constrs_ : list Constr }.

Definition ConstrSet_Substitute `{Substitution VarMap} (self : ConstrSet)
           (subs : VarMap) : ConstrSet :=
  foldl (λ new_set c,
           mkConstrSet (constrs_ new_set ++ [Substitute c subs]))
        (mkConstrSet []) (constrs_ self).

Definition AddConstr (self : ConstrSet) (c : Constr) : ConstrSet :=
  mkConstrSet (constrs_ self ++ [c]).

Definition Extend (self other : ConstrSet) : ConstrSet :=
  foldl (λ acc c, mkConstrSet (constrs_ acc ++ [c])) self (constrs_ other).

Section analyzers.
Context `{ArithAnalyzer A}.

(** The analyzer objects alive in the program are a map [h] from
    addresses to analyzer states.  A method taking [arith::Analyzer &]
    receives an address and acts on the object stored there. *)

(** [arith::Analyzer analyzer;] a new object at an unused address. *)
Definition declare_Analyzer (h : gmap nat A) : nat * gmap nat A :=
  let l := fresh (dom h) in (l, <[l := analyzer_new]> h).

(** The end of the lifetime of a local analyzer. *)
Definition destroy_Analyzer (l : nat) (h : gmap nat A) : gmap nat A :=
  delete l h.

Definition Populate (c : Constr) (analyzer : nat) (h : gmap nat A)
  : gmap nat A :=
  match c with
  | Constr_expr value _ => alter (EnterConstraint value) analyzer h
  | Constr_value v value => alter (Bind_value v value) analyzer h
  | Constr_range v range => alter (Bind_range v range) analyzer h
  end.

Definition ConstrSet_Populate (self : ConstrSet) (analyzer : nat)
           (h : gmap nat A) : gmap nat A :=
  foldl (λ h' c, Populate c analyzer h') h (constrs_ self).

(** [analyzer.CanProve(expr)] on the object at address [l]; a call
    through a dangling reference is undefined in C++ and answers
    [false] here. *)
Definition call_CanProve (expr : PrimExpr) (l : nat) (h : gmap nat A)
  : bool * gmap nat A :=
  match h !! l with
  | Some a => let '(verdict, a') := analyzer_CanProve expr a in
              (verdict, <[l := a']> h)
  | None => (false, h)
  end.

Definition CanProve (self : ConstrSet) (expr : PrimExpr) (h : gmap nat A)
  : bool * gmap nat A :=
  let '(analyzer, h1) := declare_Analyzer h in
  let h2 := ConstrSet_Populate self analyzer h1 in
  let '(verdict, h3) := call_CanProve expr analyzer h2 in
  (verdict, destroy_Analyzer analyzer h3).

(** The entry point a fact selects, as a function on the state of one
    analyzer, and the replay of a sequence of facts in list order. *)
Definition enter (c : Constr) : A → A :=
  match c with
  | Constr_expr value _ => EnterConstraint value
  | Constr_value v value => Bind_value v value
  | Constr_range v range => Bind_range v range
  end.

Definition replay (cs : list Constr) (a : A) : A :=
  foldl (λ a' c, enter c a') a cs.

End analyzers.

End Constraint.

Import Constraint.

(* ===================================================================== *)
(** ** The walker state and the scope guard                               *)
(* ===================================================================== *)

Module Walk.

(** What an observer of the walk sees.  [EvExpr] and [EvStmt] are emitted
    when [VisitExpr] / [VisitStmt] is entered on a node; this is the point
    where a pass deriving from the walker reads [constr_stack_].
    [EvPush] and [EvPop] are emitted by the guard.  Each event carries
    the content of [constr_stack_] right after it. *)
Inductive event :=
| EvExpr (e : PrimExpr) (stack : list Constr)
| EvStmt (s : Stmt) (stack : list Constr)
| EvPush (c : Constr) (stack : list Constr)
| EvPop (stack : list Constr).

Definition ev_stack (ev : event) : list Constr :=
  match ev with
  | EvExpr _ k | EvStmt _ k | EvPush _ k | EvPop k => k
  end.

Definition is_push (ev : event) : bool :=
  match ev with EvPush _ _ => true | _ => false end.

Definition is_pop (ev : event) : bool :=
  match ev with EvPop _ => true | _ => false end.

(** The member [constr_stack_] of a walker, and the observation log. *)
Record walker := Walker {
  constr_stack_ : list Constr;
  trace : list event;
}.

(** A call either returns or throws; the walker state survives both. *)
Inductive outcome (A : Type) :=
| Done (a : A)
| Throw.
Arguments Done {A} a.
Arguments Throw {A}.

Definition M (A : Type) : Type := walker → outcome A * walker.

Definition ret {A} (a : A) : M A := λ w, (Done a, w).

Definition throw {A} : M A := λ w, (Throw, w).

Definition bind {A B} (m : M A) (k : A → M B) : M B :=
  λ w, match m w with
       | (Done a, w') => k a w'
       | (Throw, w') => (Throw, w')
       end.

Definition observe (what : list Constr → event) : M unit :=
  λ w, (Done tt,
        Walker (constr_stack_ w) (trace w ++ [what (constr_stack_ w)])).

(** [MakeGuard(args...)]: [constr_stack_.push_back(Constr(args...))].
    The [Guard] it returns is constructed in place in the caller (C++17
    copy elision), so no temporary guard is destroyed on the way. *)
Definition MakeGuard (c : Constr) : M unit :=
  λ w, let stk := constr_stack_ w ++ [c] in
       (Done tt, Walker stk (trace w ++ [EvPush c stk])).

(** [~Guard() { constrs.pop_back(); }].  [pop_back] on an empty vector
    is undefined in C++; a guard is only destroyed after its own push. *)
Definition Guard_destroy (w : walker) : walker :=
  let stk := removelast (constr_stack_ w) in
  Walker stk (trace w ++ [EvPop stk]).

(** [{ auto guard = MakeGuard(c); block }]: the destructor of the guard
    runs when the block is left, by its end or by an exception. *)
Definition scoped {A} (c : Constr) (block : M A) : M A :=
  λ w, let '(r, w') := bind (MakeGuard c) (λ _, block) w in
       (r, Guard_destroy w').

(** [Downcast<T>(op->node)] throws on a payload of another type. *)
Definition Downcast_PrimExpr (o : ObjectRef) : M PrimExpr :=
  match o with
  | ObjPrimExpr e => ret e
  | _ => throw
  end.

Definition Downcast_IterVar (o : ObjectRef) : M IterVar :=
  match o with
  | ObjIterVar iv => ret iv
  | _ => throw
  end.

(** A walker with the given stack and nothing observed yet. *)
Definition start (stk : list Constr) : walker := Walker stk [].

(** The events a computation emits, and what it returns, when it is
    entered with stack [stk]. *)
Definition events {A} (m : M A) (stk : list Constr) : list event :=
  trace (m (start stk)).2.

Definition result {A} (m : M A) (stk : list Constr) : outcome A :=
  (m (start stk)).1.

Definition pushes (l : list event) : nat := length (filter is_push l).
Definition pops (l : list event) : nat := length (filter is_pop l).

End Walk.

Import Walk.

Notation "x <- m ;; k" := (bind m (λ x, k))
  (at level 100, m at next level, right associativity).
Notation "m ;; k" := (bind m (λ _, k))
  (at level 100, right associativity).

(* ===================================================================== *)
(** ** constr_visitor.h                                                   *)
(* ===================================================================== *)

Module ConstrVisitor.

Section handlers.
(** The virtual entry points [VisitExpr] and [VisitStmt] of the
    walker the handlers belong to. *)
Variable VisitExpr : PrimExpr → M unit.
Variable VisitStmt : Stmt → M unit.

Definition VisitArray {T} (visit : T → M unit) : list T → M unit :=
  fix go (l : list T) : M unit :=
    match l with
    | [] => ret tt
    | x :: l' => visit x ;; go l'
    end.

(** The default traversal inherited from [tir::StmtExprVisitor]. *)
Definition Base_VisitExpr_Binary (a b : PrimExpr) : M unit :=
  VisitExpr a ;; VisitExpr b.

Definition Base_VisitExpr_Not (a : PrimExpr) : M unit :=
  VisitExpr a.

Definition Base_VisitExpr_Call (args : list PrimExpr) : M unit :=
  VisitArray VisitExpr args.

Definition Base_VisitStmt_LetStmt (value : PrimExpr) (body : Stmt)
  : M unit :=
  VisitExpr value ;; VisitStmt body.

Definition Base_VisitStmt_AttrStmt (value : PrimExpr) (body : Stmt)
  : M unit :=
  VisitExpr value ;; VisitStmt body.

Definition Base_VisitStmt_AssertStmt (condition message : PrimExpr)
           (body : Stmt) : M unit :=
  VisitExpr condition ;; VisitExpr message ;; VisitStmt body.

Definition Base_VisitStmt_For (min extent : PrimExpr) (body : Stmt)
  : M unit :=
  VisitExpr min ;; VisitExpr extent ;; VisitStmt body.

Definition Base_VisitStmt_SeqStmt (seq : list Stmt) : M unit :=
  VisitArray VisitStmt seq.

Definition Base_VisitStmt_Evaluate (value : PrimExpr) : M unit :=
  VisitExpr value.

(** The overrides of [ConstrVisitor]. *)
Definition VisitIfThenElseExpr (cond true_value false_value : PrimExpr)
  : M unit :=
  scoped (Constr_expr cond false) (VisitExpr true_value) ;;
  scoped (Constr_expr (Not cond) false) (VisitExpr false_value).

Definition VisitStmt_LetStmt (v : Var) (value : PrimExpr) (body : Stmt)
  : M unit :=
  scoped (Constr_value v value) (Base_VisitStmt_LetStmt value body).

Definition VisitStmt_AttrStmt (node : ObjectRef) (attr_key : AttrKey)
           (value : PrimExpr) (body : Stmt) : M unit :=
  match attr_key with
  | tilelang_assume =>
      expr <- Downcast_PrimExpr node ;;
      scoped (Constr_expr expr true) (Base_VisitStmt_AttrStmt value body)
  | thread_extent | virtual_thread =>
      iv <- Downcast_IterVar node ;;
      let dom := FromMinExtent make_zero value in
      scoped (Constr_range (var iv) dom)
             (Base_VisitStmt_AttrStmt value body)
  | other_key _ => Base_VisitStmt_AttrStmt value body
  end.

Definition VisitStmt_AssertStmt (condition message : PrimExpr)
           (body : Stmt) : M unit :=
  scoped (Constr_expr condition false)
         (Base_VisitStmt_AssertStmt condition message body).

Definition VisitStmt_IfThenElse (condition : PrimExpr) (then_case : Stmt)
           (else_case : option Stmt) : M unit :=
  scoped (Constr_expr condition false) (VisitStmt then_case) ;;
  match else_case with
  | Some else_stmt =>
      scoped (Constr_expr (Not condition) false) (VisitStmt else_stmt)
  | None => ret tt
  end.

Definition VisitStmt_For (loop_var : Var) (min extent : PrimExpr)
           (kind : ForKind) (body : Stmt) : M unit :=
  match kind with
  | kParallel | kVectorized =>
      scoped (Constr_range loop_var (FromMinExtent min extent))
        (scoped (Constr_expr (extent > IntImm 0)%tir false)
           (Base_VisitStmt_For min extent body))
  | _ =>
      scoped (Constr_range loop_var (FromMinExtent min extent))
        (scoped (Constr_expr (extent > IntImm 0)%tir false)
           (Base_VisitStmt_For min extent body))
  end.

Definition VisitStmt_While (condition : PrimExpr) (body : Stmt)
  : M unit :=
  scoped (Constr_expr condition false) (VisitStmt body).

End handlers.

(** Dispatch on the node type.  [args[0]], [args[1]] and [args[2]] of an
    if_then_else call are bounds-checked accesses. *)
Fixpoint VisitExpr (e : PrimExpr) : M unit :=
  observe (EvExpr e) ;;
  match e with
  | EVar _ | IntImm _ | StringImm _ => ret tt
  | Binary _ a b => Base_VisitExpr_Binary VisitExpr a b
  | Not a => Base_VisitExpr_Not VisitExpr a
  | Select c t f => VisitIfThenElseExpr VisitExpr c t f
  | Call op args =>
      if String.eqb op op_if_then_else then
        match args with
        | c :: t :: f :: _ => VisitIfThenElseExpr VisitExpr c t f
        | _ => throw
        end
      else Base_VisitExpr_Call VisitExpr args
  end.

Fixpoint VisitStmt (s : Stmt) : M unit :=
  observe (EvStmt s) ;;
  match s with
  | LetStmt v value body =>
      VisitStmt_LetStmt VisitExpr VisitStmt v value body
  | AttrStmt node key value body =>
      VisitStmt_AttrStmt VisitExpr VisitStmt node key value body
  | AssertStmt c m body =>
      VisitStmt_AssertStmt VisitExpr VisitStmt c m body
  | IfThenElse c t e => VisitStmt_IfThenElse VisitStmt c t e
  | For v min extent kind body _ _ =>
      VisitStmt_For VisitExpr VisitStmt v min extent kind body
  | While c body => VisitStmt_While VisitStmt c body
  | SeqStmt seq => Base_VisitStmt_SeqStmt VisitStmt seq
  | Evaluate value => Base_VisitStmt_Evaluate VisitExpr value
  end.

End ConstrVisitor.

(* ===================================================================== *)
(** ** constr_mutator.h                                                   *)
(* ===================================================================== *)

Module ConstrMutator.

(** What a rewriting visit hands back.  Every reference the mutator
    returns points either to the very object it was called on
    ([GetRef(op)], or an unchanged child handed through) or to an object
    constructed during the walk.  [same_as] is only ever applied to the
    result of rewriting a child and that child, so the pointer comparison
    is decided by this tag. *)
Inductive Rewritten (T : Type) :=
| SameObject
| NewObject (x : T).
Arguments SameObject {T}.
Arguments NewObject {T} x.

Definition same_as {T} (r : Rewritten T) : bool :=
  match r with SameObject => true | NewObject _ => false end.

(** The node a result refers to, [orig] being the node it came from. *)
Definition deref {T} (r : Rewritten T) (orig : T) : T :=
  match r with SameObject => orig | NewObject x => x end.

Section handlers.
Variable VisitExpr : PrimExpr → M (Rewritten PrimExpr).
Variable VisitStmt : Stmt → M (Rewritten Stmt).

(** Copy-on-write rewriting of an [Array<T>]. *)
Definition MutateArray {T} (visit : T → M (Rewritten T))
  : list T → M (Rewritten (list T)) :=
  fix go (l : list T) : M (Rewritten (list T)) :=
    match l with
    | [] => ret SameObject
    | x :: l' =>
        r <- visit x ;;
        rs <- go l' ;;
        if same_as r && same_as rs then ret SameObject
        else ret (NewObject (deref r x :: deref rs l'))
    end.

(** The default rewriting inherited from [tir::StmtExprMutator]. *)
Definition Base_VisitExpr_Binary (op : BinaryOp) (a b : PrimExpr)
  : M (Rewritten PrimExpr) :=
  r_a <- VisitExpr a ;;
  r_b <- VisitExpr b ;;
  if same_as r_a && same_as r_b then ret SameObject
  else ret (NewObject (Binary op (deref r_a a) (deref r_b b))).

Definition Base_VisitExpr_Not (a : PrimExpr) : M (Rewritten PrimExpr) :=
  r_a <- VisitExpr a ;;
  if same_as r_a then ret SameObject
  else ret (NewObject (Not (deref r_a a))).

Definition Base_VisitExpr_Call (op : string) (args : list PrimExpr)
  : M (Rewritten PrimExpr) :=
  r_args <- MutateArray VisitExpr args ;;
  if same_as r_args then ret SameObject
  else ret (NewObject (Call op (deref r_args args))).

Definition Base_VisitStmt_SeqStmt (seq : list Stmt)
  : M (Rewritten Stmt) :=
  r_seq <- MutateArray VisitStmt seq ;;
  if same_as r_seq then ret SameObject
  else ret (NewObject (SeqStmt (deref r_seq seq))).

Definition Base_VisitStmt_Evaluate (value : PrimExpr)
  : M (Rewritten Stmt) :=
  r_value <- VisitExpr value ;;
  if same_as r_value then ret SameObject
  else ret (NewObject (Evaluate (deref r_value value))).

(** The overrides of [ConstrMutator]. *)
Definition VisitIfThenElseExpr (cond true_value false_value : PrimExpr)
  : M (Rewritten PrimExpr) :=
  r_cond <- VisitExpr cond ;;
  let new_cond := deref r_cond cond in
  r_true <- scoped (Constr_expr new_cond false) (VisitExpr true_value) ;;
  let new_true_value := deref r_true true_value in
  r_false <- scoped (Constr_expr (Not new_cond) false)
                    (VisitExpr false_value) ;;
  let new_false_value := deref r_false false_value in
  if same_as r_cond && same_as r_true && same_as r_false
  then ret (NewObject (Select cond true_value false_value))
  else ret (NewObject (Select new_cond new_true_value new_false_value)).

Definition VisitStmt_LetStmt (v : Var) (value : PrimExpr) (body : Stmt)
  : M (Rewritten Stmt) :=
  r_value <- VisitExpr value ;;
  let value' := deref r_value value in
  scoped (Constr_value v value')
    (r_body <- VisitStmt body ;;
     if same_as r_value && same_as r_body then ret SameObject
     else ret (NewObject (LetStmt v value' (deref r_body body)))).

Definition VisitStmt_AttrStmt (node : ObjectRef) (attr_key : AttrKey)
           (value : PrimExpr) (body : Stmt) : M (Rewritten Stmt) :=
  r_value <- VisitExpr value ;;
  let value' := deref r_value value in
  r_body <- VisitStmt body ;;
  match attr_key with
  | tilelang_assume =>
      expr <- Downcast_PrimExpr node ;;
      scoped (Constr_expr expr true) (ret tt)
  | thread_extent | virtual_thread =>
      iv <- Downcast_IterVar node ;;
      let dom := FromMinExtent make_zero value' in
      scoped (Constr_range (var iv) dom) (ret tt)
  | other_key _ => ret tt
  end ;;
  if same_as r_value && same_as r_body then ret SameObject
  else ret (NewObject (AttrStmt node attr_key value'
                                (deref r_body body))).

Definition VisitStmt_AssertStmt (condition message : PrimExpr)
           (body : Stmt) : M (Rewritten Stmt) :=
  r_condition <- VisitExpr condition ;;
  let condition' := deref r_condition condition in
  scoped (Constr_expr condition' false)
    (r_message <- VisitExpr message ;;
     r_body <- VisitStmt body ;;
     if same_as r_condition && same_as r_message && same_as r_body
     then ret SameObject
     else ret (NewObject (AssertStmt condition' (deref r_message message)
                                     (deref r_body body)))).

Definition VisitStmt_IfThenElse (condition : PrimExpr) (then_case : Stmt)
           (else_case : option Stmt) : M (Rewritten Stmt) :=
  r_condition <- VisitExpr condition ;;
  let condition' := deref r_condition condition in
  r_then <- scoped (Constr_expr condition' false) (VisitStmt then_case) ;;
  let then_case' := deref r_then then_case in
  match else_case with
  | Some else_stmt =>
      r_else <- scoped (Constr_expr (Not condition') false)
                       (VisitStmt else_stmt) ;;
      if same_as r_condition && same_as r_then && same_as r_else
      then ret SameObject
      else ret (NewObject (IfThenElse condition' then_case'
                                      (Some (deref r_else else_stmt))))
  | None =>
      if same_as r_condition && same_as r_then then ret SameObject
      else ret (NewObject (IfThenElse condition' then_case' None))
  end.

Definition VisitStmt_For (loop_var : Var) (min extent : PrimExpr)
           (kind : ForKind) (body : Stmt)
           (thread_binding : option IterVar)
           (annotations : list (string * PrimExpr))
  : M (Rewritten Stmt) :=
  r_min <- VisitExpr min ;;
  let min' := deref r_min min in
  r_extent <- VisitExpr extent ;;
  let extent' := deref r_extent extent in
  r_body <-
    match kind with
    | kParallel | kVectorized =>
        scoped (Constr_range loop_var (FromMinExtent min' extent'))
          (scoped (Constr_expr (extent' > IntImm 0)%tir false)
             (VisitStmt body))
    | _ =>
        scoped (Constr_range loop_var (FromMinExtent min' extent'))
          (scoped (Constr_expr (extent' > IntImm 0)%tir false)
             (VisitStmt body))
    end ;;
  if same_as r_min && same_as r_extent && same_as r_body
  then ret SameObject
  else ret (NewObject (For loop_var min' extent' kind (deref r_body body)
                           thread_binding annotations)).

Definition VisitStmt_While (condition : PrimExpr) (body : Stmt)
  : M (Rewritten Stmt) :=
  r_condition <- VisitExpr condition ;;
  let condition' := deref r_condition condition in
  r_body <- scoped (Constr_expr condition' false) (VisitStmt body) ;;
  if same_as r_condition && same_as r_body then ret SameObject
  else ret (NewObject (While condition' (deref r_body body))).

End handlers.

Fixpoint VisitExpr (e : PrimExpr) : M (Rewritten PrimExpr) :=
  observe (EvExpr e) ;;
  match e with
  | EVar _ | IntImm _ | StringImm _ => ret SameObject
  | Binary op a b => Base_VisitExpr_Binary VisitExpr op a b
  | Not a => Base_VisitExpr_Not VisitExpr a
  | Select c t f => VisitIfThenElseExpr VisitExpr c t f
  | Call op args =>
      if String.eqb op op_if_then_else then
        match args with
        | c :: t :: f :: _ => VisitIfThenElseExpr VisitExpr c t f
        | _ => throw
        end
      else Base_VisitExpr_Call VisitExpr op args
  end.

Fixpoint VisitStmt (s : Stmt) : M (Rewritten Stmt) :=
  observe (EvStmt s) ;;
  match s with
  | LetStmt v value body =>
      VisitStmt_LetStmt VisitExpr VisitStmt v value body
  | AttrStmt node key value body =>
      VisitStmt_AttrStmt VisitExpr VisitStmt node key value body
  | AssertStmt c m body =>
      VisitStmt_AssertStmt VisitExpr VisitStmt c m body
  | IfThenElse c t e => VisitStmt_IfThenElse VisitExpr VisitStmt c t e
  | For v min extent kind body tb ann =>
      VisitStmt_For VisitExpr VisitStmt v min extent kind body tb ann
  | While c body => VisitStmt_While VisitExpr VisitStmt c body
  | SeqStmt seq => Base_VisitStmt_SeqStmt VisitStmt seq
  | Evaluate value => Base_VisitStmt_Evaluate VisitExpr value
  end.

(** Whether a conditional value (a [Select] node or an if_then_else
    call) occurs in an expression. *)
Fixpoint has_conditional (e : PrimExpr) : bool :=
  match e with
  | EVar _ | IntImm _ | StringImm _ => false
  | Binary _ a b => has_conditional a || has_conditional b
  | Not a => has_conditional a
  | Select _ _ _ => true
  | Call op args =>
      String.eqb op op_if_then_else || existsb has_conditional args
  end.

End ConstrMutator.

(* ===================================================================== *)
(** ** Scope discipline of a computation                                  *)
(* ===================================================================== *)

Module Discipline.

(** [runs m stk r L]: entered with stack [stk], [m] ends with outcome [r],
    appends exactly [L] to the log and leaves the stack as it found it. *)
Definition runs {A} (m : M A) (stk : list Constr) (r : outcome A)
           (L : list event) : Prop :=
  ∀ tr, m (Walker stk tr) = (r, Walker stk (tr ++ L)).

(** Every stack seen during [L] extends [stk]. *)
Definition above (stk : list Constr) (L : list event) : Prop :=
  Forall (λ ev, stk `prefix_of` ev_stack ev) L.

Definition disciplined {A} (m : M A) : Prop :=
  ∀ stk, ∃ r L, runs m stk r L ∧ above stk L ∧ pushes L = pops L.

(** A node is visited under a stack when the log has the visit of that
    node with that stack. *)
Definition visited_expr (L : list event) (e : PrimExpr)
           (stk : list Constr) : Prop :=
  EvExpr e stk ∈ L.

Definition visited_stmt (L : list event) (s : Stmt)
           (stk : list Constr) : Prop :=
  EvStmt s stk ∈ L.

(** The reading of an assertion under which nothing but the continuation
    sees the asserted fact: condition and message are visited with the
    stack [stk] the statement was entered with, the body with [fact]
    pushed on it. *)
Definition assert_only_body_guarded (L : list event) (stk : list Constr)
           (fact : Constr) (condition message : PrimExpr) (body : Stmt)
  : Prop :=
  visited_expr L condition stk ∧
  visited_expr L message stk ∧
  visited_stmt L body (stk ++ [fact]).

End Discipline.

Import Discipline.

(* ===================================================================== *)
(** ** Sample programs                                                    *)
(* ===================================================================== *)

Module Examples.

Definition x : Var := mkVar 0 "x".
Definition i : Var := mkVar 1 "i".
Definition n : Var := mkVar 2 "n".
Definition tx : Var := mkVar 3 "tx".

Definition x_positive : PrimExpr := (EVar x > IntImm 0)%tir.

(** [select(x > 0, x, 0 - x)] *)
Definition abs_select : PrimExpr :=
  Select x_positive (EVar x) (IntImm 0 - EVar x)%tir.

(** [tir.if_then_else(x > 0, x, 0 - x)] *)
Definition abs_call : PrimExpr :=
  Call op_if_then_else [x_positive; EVar x; (IntImm 0 - EVar x)%tir].

(** [attr [x > 0] "assume" = 1 { evaluate(x) }] *)
Definition assumed : Stmt :=
  AttrStmt (ObjPrimExpr x_positive) tilelang_assume (IntImm 1)
           (Evaluate (EVar x)).

(** [attr [tx] "thread_extent" = 128 { evaluate(tx) }] *)
Definition launch : Stmt :=
  AttrStmt (ObjIterVar (mkIterVar tx "threadIdx.x")) thread_extent
           (IntImm 128) (Evaluate (EVar tx)).

Definition message : PrimExpr := StringImm "x must be positive".

(** [assert(x > 0, "x must be positive") { evaluate(x) }] *)
Definition checked : Stmt :=
  AssertStmt x_positive message (Evaluate (EVar x)).

(** [for (i, 0, n) "parallel" { evaluate(i) }] *)
Definition loop : Stmt :=
  For i (IntImm 0) (EVar n) kParallel (Evaluate (EVar i)) None [].

End Examples.

(* ===================================================================== *)
(** ** Reference functions for stating what the walkers compute           *)
(* ===================================================================== *)

Module Reference.

(** [e] with every if_then_else call replaced by the [Select] node over
    its first three arguments. *)
Fixpoint normalize (e : PrimExpr) : PrimExpr :=
  match e with
  | EVar _ | IntImm _ | StringImm _ => e
  | Binary op a b => Binary op (normalize a) (normalize b)
  | Not a => Not (normalize a)
  | Select c t f => Select (normalize c) (normalize t) (normalize f)
  | Call op args =>
      if String.eqb op op_if_then_else then
        match args with
        | c :: t :: f :: _ => Select (normalize c) (normalize t) (normalize f)
        | _ => Call op (map normalize args)
        end
      else Call op (map normalize args)
  end.

(** The same replacement in every expression a statement holds as a
    child; the payload of an attribute is not a child. *)
Fixpoint normalize_stmt (s : Stmt) : Stmt :=
  match s with
  | LetStmt v value body => LetStmt v (normalize value) (normalize_stmt body)
  | AttrStmt node key value body =>
      AttrStmt node key (normalize value) (normalize_stmt body)
  | AssertStmt c m body =>
      AssertStmt (normalize c) (normalize m) (normalize_stmt body)
  | IfThenElse c t e =>
      IfThenElse (normalize c) (normalize_stmt t)
                 (match e with
                  | Some e' => Some (normalize_stmt e')
                  | None => None
                  end)
  | For v mn ext k body tb ann =>
      For v (normalize mn) (normalize ext) k (normalize_stmt body) tb ann
  | While c body => While (normalize c) (normalize_stmt body)
  | SeqStmt seq => SeqStmt (map normalize_stmt seq)
  | Evaluate value => Evaluate (normalize value)
  end.

(** Every if_then_else call has the three arguments the walkers index. *)
Fixpoint well_formed (e : PrimExpr) : bool :=
  match e with
  | EVar _ | IntImm _ | StringImm _ => true
  | Binary _ a b => well_formed a && well_formed b
  | Not a => well_formed a
  | Select c t f => well_formed c && well_formed t && well_formed f
  | Call op args =>
      forallb well_formed args &&
      (negb (String.eqb op op_if_then_else) || (3 <=? length args))
  end.

(** Every if_then_else call has exactly three arguments. *)
Fixpoint exact_arity (e : PrimExpr) : bool :=
  match e with
  | EVar _ | IntImm _ | StringImm _ => true
  | Binary _ a b => exact_arity a && exact_arity b
  | Not a => exact_arity a
  | Select c t f => exact_arity c && exact_arity t && exact_arity f
  | Call op args =>
      forallb exact_arity args &&
      (negb (String.eqb op op_if_then_else) || (length args =? 3))
  end.

(** Whether a conditional value occurs in a child expression of a
    statement, at any depth. *)
Fixpoint has_conditional_stmt (s : Stmt) : bool :=
  match s with
  | LetStmt _ value body =>
      ConstrMutator.has_conditional value || has_conditional_stmt body
  | AttrStmt _ _ value body =>
      ConstrMutator.has_conditional value || has_conditional_stmt body
  | AssertStmt c m body =>
      ConstrMutator.has_conditional c || ConstrMutator.has_conditional m ||
      has_conditional_stmt body
  | IfThenElse c t e =>
      ConstrMutator.has_conditional c || has_conditional_stmt t ||
      match e with Some e' => has_conditional_stmt e' | None => false end
  | For _ mn ext _ body _ _ =>
      ConstrMutator.has_conditional mn || ConstrMutator.has_conditional ext ||
      has_conditional_stmt body
  | While c body =>
      ConstrMutator.has_conditional c || has_conditional_stmt body
  | SeqStmt seq => existsb has_conditional_stmt seq
  | Evaluate value => ConstrMutator.has_conditional value
  end.

(** The payload of an attribute has the type its key is downcast to. *)
Definition payload_ok (key : AttrKey) (node : ObjectRef) : bool :=
  match key, node with
  | tilelang_assume, ObjPrimExpr _ => true
  | thread_extent, ObjIterVar _ => true
  | virtual_thread, ObjIterVar _ => true
  | other_key _, _ => true
  | _, _ => false
  end.

Fixpoint well_formed_stmt (s : Stmt) : bool :=
  match s with
  | LetStmt _ value body => well_formed value && well_formed_stmt body
  | AttrStmt node key value body =>
      payload_ok key node && well_formed value && well_formed_stmt body
  | AssertStmt c m body =>
      well_formed c && well_formed m && well_formed_stmt body
  | IfThenElse c t e =>
      well_formed c && well_formed_stmt t &&
      match e with Some e' => well_formed_stmt e' | None => true end
  | For _ mn ext _ body _ _ =>
      well_formed mn && well_formed ext && well_formed_stmt body
  | While c body => well_formed c && well_formed_stmt body
  | SeqStmt seq => forallb well_formed_stmt seq
  | Evaluate value => well_formed value
  end.

(** The expression nodes of a tree, parents before children, children in
    field order. *)
Fixpoint nodes (e : PrimExpr) : list PrimExpr :=
  e :: match e with
       | EVar _ | IntImm _ | StringImm _ => []
       | Binary _ a b => nodes a ++ nodes b
       | Not a => nodes a
       | Select c t f => nodes c ++ nodes t ++ nodes f
       | Call _ args => concat (map nodes args)
       end.

(** The expressions a log records as visited, in the order of the log. *)
Definition visited_exprs (L : list event) : list PrimExpr :=
  omap (λ ev, match ev with EvExpr e _ => Some e | _ => None end) L.

(** Whether a computation entered with [stk] returns rather than throws. *)
Definition returns {A} (m : M A) (stk : list Constr) : bool :=
  match result m stk with Done _ => true | Throw => false end.

(** [lifo stk L final]: read from stack [stk], the log [L] is a history of
    one stack: a push puts one fact on top, a pop takes the top fact
    off, a visit sees the stack as it is; [final] is the stack at the end. *)
Fixpoint lifo (stk : list Constr) (L : list event) (final : list Constr)
  : Prop :=
  match L with
  | [] => final = stk
  | EvPush c k :: L' => k = stk ++ [c] ∧ lifo k L' final
  | EvPop k :: L' => (∃ c, stk = k ++ [c]) ∧ lifo k L' final
  | EvExpr _ k :: L' | EvStmt _ k :: L' => k = stk ∧ lifo stk L' final
  end.

(** A computation whose log is the history of one stack, given back at
    the end. *)
Definition orderly (T : Type) (m : M T) : Prop :=
  disciplined m ∧ ∀ stk, lifo stk (events m stk) stk.

(** The event [ev] as it is seen below the facts [outer]. *)
Definition shift (outer : list Constr) (ev : event) : event :=
  match ev with
  | EvExpr e k => EvExpr e (outer ++ k)
  | EvStmt s k => EvStmt s (outer ++ k)
  | EvPush c k => EvPush c (outer ++ k)
  | EvPop k => EvPop (outer ++ k)
  end.

(** A computation that behaves under any stack as it does under the
    empty one, the stack it is entered with showing below what it pushes
    itself. *)
Definition framed (T : Type) (m : M T) : Prop :=
  disciplined m ∧
  ∀ stk, events m stk = map (shift stk) (events m []) ∧
         result m stk = result m [].

(** The log of consecutive steps: each step's log in turn, ending with
    the first step that throws. *)
Fixpoint chain (steps : list (list event * bool)) : list event :=
  match steps with
  | [] => []
  | (L, returned) :: rest => L ++ if returned then chain rest else []
  end.

(** The log of a branch point entered with stack [stk].  [first] and
    [second] are the logs of the walks of the two branches as they run
    from the empty stack, so every stack seen while the first branch is
    walked is [stk], then the fact [cond], then what that walk has pushed
    itself; the pop that follows shows [stk] again; only then, if the
    first walk has returned and there is a second branch, [Not cond] is
    pushed on [stk], the second branch is walked under it, and it is
    popped. *)
Definition branch_events (stk : list Constr) (cond : PrimExpr)
           (first : list event) (first_returns : bool)
           (second : option (list event)) : list event :=
  let C := Constr_expr cond false in
  let N := Constr_expr (Not cond) false in
  EvPush C (stk ++ [C]) :: map (shift (stk ++ [C])) first ++
  EvPop stk ::
  match second with
  | Some L2 =>
      if first_returns
      then EvPush N (stk ++ [N]) :: map (shift (stk ++ [N])) L2 ++ [EvPop stk]
      else []
  | None => []
  end.

(** The replay of the generic predicates of a set, substituted, through
    [EnterConstraint] alone. *)
Definition enter_substituted `{ArithAnalyzer A} `{Substitution VarMap}
           (cs : list Constr) (subs : VarMap) (a : A) : A :=
  foldl (λ a' c, EnterConstraint (tir_Substitute (ToGenericConstr c) subs) a')
        a cs.

End Reference.

Import Reference.

(* ===================================================================== *)
(** ** The algebra of disciplined computations                            *)
(* ===================================================================== *)

Section monad_facts.
Context {A B : Type}.
Implicit Types (m : M A) (k : A → M B) (stk : list Constr).

Lemma runs_result m stk r L : runs m stk r L → result m stk = r.
Proof. intros Hr. unfold result, start. by rewrite (Hr []). Qed.

Lemma runs_events m stk r L : runs m stk r L → events m stk = L.
Proof. intros Hr. unfold events, start. by rewrite (Hr []). Qed.

Lemma disciplined_runs m stk :
  disciplined m → runs m stk (result m stk) (events m stk).
Proof.
  intros Hm. destruct (Hm stk) as (r & L & Hr & _).
  by rewrite (runs_result _ _ _ _ Hr), (runs_events _ _ _ _ Hr).
Qed.

Lemma disciplined_above m stk : disciplined m → above stk (events m stk).
Proof.
  intros Hm. destruct (Hm stk) as (r & L & Hr & Ha & _).
  by rewrite (runs_events _ _ _ _ Hr).
Qed.

Lemma disciplined_balanced m stk :
  disciplined m → pushes (events m stk) = pops (events m stk).
Proof.
  intros Hm. destruct (Hm stk) as (r & L & Hr & _ & Hb).
  by rewrite (runs_events _ _ _ _ Hr).
Qed.

Lemma runs_ret (a : A) stk : runs (ret a) stk (Done a) [].
Proof. intros tr. unfold ret. by rewrite app_nil_r. Qed.

Lemma runs_throw stk : runs (@throw A) stk Throw [].
Proof. intros tr. unfold throw. by rewrite app_nil_r. Qed.

Lemma runs_bind_done m k stk a L1 r L2 :
  runs m stk (Done a) L1 → runs (k a) stk r L2 →
  runs (bind m k) stk r (L1 ++ L2).
Proof.
  intros H1 H2 tr. unfold bind. rewrite H1, H2. by rewrite app_assoc.
Qed.

Lemma runs_bind_throw m k stk L1 :
  runs m stk Throw L1 → runs (bind m k) stk Throw L1.
Proof. intros H1 tr. unfold bind. by rewrite H1. Qed.

Lemma runs_scoped (c : Constr) m stk r L :
  runs m (stk ++ [c]) r L →
  runs (scoped c m) stk r (EvPush c (stk ++ [c]) :: L ++ [EvPop stk]).
Proof.
  intros Hm tr. unfold scoped, bind, MakeGuard, Guard_destroy. simpl.
  rewrite Hm. simpl. rewrite removelast_last.
  f_equal. f_equal. by rewrite <- !app_assoc.
Qed.

End monad_facts.

Lemma pushes_app L1 L2 : pushes (L1 ++ L2) = pushes L1 + pushes L2.
Proof. unfold pushes. by rewrite filter_app, length_app. Qed.

Lemma pops_app L1 L2 : pops (L1 ++ L2) = pops L1 + pops L2.
Proof. unfold pops. by rewrite filter_app, length_app. Qed.

Lemma above_app stk L1 L2 : above stk L1 → above stk L2 → above stk (L1 ++ L2).
Proof. unfold above. intros. by apply Forall_app. Qed.

Lemma above_weaken stk c L : above (stk ++ [c]) L → above stk L.
Proof.
  unfold above. intros HL. eapply Forall_impl; [exact HL|].
  intros ev Hev. etrans; [apply prefix_app_r; reflexivity | exact Hev].
Qed.

Section closure.
Context {A B : Type}.

Lemma disciplined_ret (a : A) : disciplined (ret a).
Proof.
  intros stk. exists (Done a), []. split; [apply runs_ret|].
  split; [constructor | done].
Qed.

Lemma disciplined_throw : disciplined (@throw A).
Proof.
  intros stk. exists Throw, []. split; [apply runs_throw|].
  split; [constructor | done].
Qed.

Lemma disciplined_bind (m : M A) (k : A → M B) :
  disciplined m → (∀ a, disciplined (k a)) → disciplined (bind m k).
Proof.
  intros Hm Hk stk. destruct (Hm stk) as (r & L1 & Hr & Ha & Hb).
  destruct r as [a|].
  - destruct (Hk a stk) as (r2 & L2 & Hr2 & Ha2 & Hb2).
    exists r2, (L1 ++ L2). split; [by eapply runs_bind_done|].
    split; [by apply above_app|].
    rewrite pushes_app, pops_app. lia.
  - exists Throw, L1. split; [by apply runs_bind_throw | done].
Qed.

Lemma disciplined_scoped (c : Constr) (m : M A) :
  disciplined m → disciplined (scoped c m).
Proof.
  intros Hm stk. destruct (Hm (stk ++ [c])) as (r & L & Hr & Ha & Hb).
  exists r, (EvPush c (stk ++ [c]) :: L ++ [EvPop stk]).
  split; [by apply runs_scoped|]. split.
  - constructor; [simpl; by apply prefix_app_r|].
    apply above_app; [by eapply above_weaken|].
    constructor; [done | constructor].
  - change (EvPush c (stk ++ [c]) :: L ++ [EvPop stk])
      with ([EvPush c (stk ++ [c])] ++ L ++ [EvPop stk]).
    rewrite !pushes_app, !pops_app. unfold pushes, pops in *. simpl. lia.
Qed.

End closure.

Lemma disciplined_observe_expr e : disciplined (observe (EvExpr e)).
Proof.
  intros stk. exists (Done tt), [EvExpr e stk]. split; [done|].
  split; [by repeat constructor | done].
Qed.

Lemma disciplined_observe_stmt s : disciplined (observe (EvStmt s)).
Proof.
  intros stk. exists (Done tt), [EvStmt s stk]. split; [done|].
  split; [by repeat constructor | done].
Qed.

Lemma disciplined_Downcast_PrimExpr o : disciplined (Downcast_PrimExpr o).
Proof. destruct o; first [apply disciplined_ret | apply disciplined_throw]. Qed.

Lemma disciplined_Downcast_IterVar o : disciplined (Downcast_IterVar o).
Proof. destruct o; first [apply disciplined_ret | apply disciplined_throw]. Qed.

Create HintDb discipline.
#[export] Hint Resolve disciplined_ret disciplined_throw disciplined_scoped
  disciplined_observe_expr disciplined_observe_stmt
  disciplined_Downcast_PrimExpr disciplined_Downcast_IterVar : discipline.

(** Splits a computation along its binds and case distinctions. *)
Ltac discipline :=
  repeat first
    [ assumption
    | progress intros
    | progress eauto with discipline
    | apply disciplined_scoped
    | apply disciplined_bind; [| intros ?]
    | match goal with
      | |- disciplined (if ?b then _ else _) => destruct b
      | |- disciplined (match ?x with _ => _ end) => destruct x
      end ].

(* ===================================================================== *)
(** ** Structural induction through the nested children                   *)
(* ===================================================================== *)

Lemma PrimExpr_nested_ind (P : PrimExpr → Prop) :
  (∀ v, P (EVar v)) →
  (∀ z, P (IntImm z)) →
  (∀ s, P (StringImm s)) →
  (∀ op a b, P a → P b → P (Binary op a b)) →
  (∀ a, P a → P (Not a)) →
  (∀ c t f, P c → P t → P f → P (Select c t f)) →
  (∀ op args, Forall P args → P (Call op args)) →
  ∀ e, P e.
Proof.
  intros HV HI HS HB HN HSel HC. fix IH 1. intros [v|z|s|op a b|a|c t f|op args].
  - apply HV.
  - apply HI.
  - apply HS.
  - apply HB; apply IH.
  - apply HN; apply IH.
  - apply HSel; apply IH.
  - apply HC. induction args as [|x args IHargs]; constructor; [apply IH | exact IHargs].
Qed.

Lemma Stmt_nested_ind (P : Stmt → Prop) :
  (∀ v value body, P body → P (LetStmt v value body)) →
  (∀ node key value body, P body → P (AttrStmt node key value body)) →
  (∀ c m body, P body → P (AssertStmt c m body)) →
  (∀ c t, P t → P (IfThenElse c t None)) →
  (∀ c t e, P t → P e → P (IfThenElse c t (Some e))) →
  (∀ v mn ext k body tb ann, P body → P (For v mn ext k body tb ann)) →
  (∀ c body, P body → P (While c body)) →
  (∀ seq, Forall P seq → P (SeqStmt seq)) →
  (∀ value, P (Evaluate value)) →
  ∀ s, P s.
Proof.
  intros HL HA HAs HI0 HI1 HF HW HS HE. fix IH 1.
  intros [v value body|node key value body|c m body|c t [e|]
         |v mn ext k body tb ann|c body|seq|value].
  - apply HL, IH.
  - apply HA, IH.
  - apply HAs, IH.
  - apply HI1; apply IH.
  - apply HI0, IH.
  - apply HF, IH.
  - apply HW, IH.
  - apply HS. induction seq as [|x seq IHseq]; constructor; [apply IH | exact IHseq].
  - apply HE.
Qed.

(* ===================================================================== *)
(** ** Both walkers are disciplined                                       *)
(* ===================================================================== *)

Lemma visitor_VisitArray_disciplined {T} (visit : T → M unit) l :
  Forall (λ x, disciplined (visit x)) l →
  disciplined (ConstrVisitor.VisitArray visit l).
Proof. induction 1; simpl; discipline. Qed.

Lemma visitor_VisitExpr_disciplined e :
  disciplined (ConstrVisitor.VisitExpr e).
Proof.
  induction e using PrimExpr_nested_ind; simpl;
    unfold ConstrVisitor.Base_VisitExpr_Binary, ConstrVisitor.Base_VisitExpr_Not,
      ConstrVisitor.VisitIfThenElseExpr, ConstrVisitor.Base_VisitExpr_Call;
    try solve [discipline].
  apply disciplined_bind; [discipline | intros _].
  destruct (String.eqb op op_if_then_else).
  - destruct H as [|c args Hc [|t args' Ht [|f args'' Hf _]]]; discipline.
  - by apply visitor_VisitArray_disciplined.
Qed.

Lemma visitor_VisitStmt_disciplined s :
  disciplined (ConstrVisitor.VisitStmt s).
Proof.
  pose proof visitor_VisitExpr_disciplined as HE.
  induction s using Stmt_nested_ind; simpl;
    unfold ConstrVisitor.VisitStmt_LetStmt, ConstrVisitor.VisitStmt_AttrStmt,
      ConstrVisitor.VisitStmt_AssertStmt, ConstrVisitor.VisitStmt_IfThenElse,
      ConstrVisitor.VisitStmt_For, ConstrVisitor.VisitStmt_While,
      ConstrVisitor.Base_VisitStmt_LetStmt, ConstrVisitor.Base_VisitStmt_AttrStmt,
      ConstrVisitor.Base_VisitStmt_AssertStmt, ConstrVisitor.Base_VisitStmt_For,
      ConstrVisitor.Base_VisitStmt_SeqStmt, ConstrVisitor.Base_VisitStmt_Evaluate;
    try solve [discipline].
  apply disciplined_bind; [discipline | intros _].
  by apply visitor_VisitArray_disciplined.
Qed.

Lemma mutator_MutateArray_disciplined {T}
      (visit : T → M (ConstrMutator.Rewritten T)) l :
  Forall (λ x, disciplined (visit x)) l →
  disciplined (ConstrMutator.MutateArray visit l).
Proof. induction 1; simpl; discipline. Qed.

Lemma mutator_VisitExpr_disciplined e :
  disciplined (ConstrMutator.VisitExpr e).
Proof.
  induction e using PrimExpr_nested_ind; simpl;
    unfold ConstrMutator.Base_VisitExpr_Binary, ConstrMutator.Base_VisitExpr_Not,
      ConstrMutator.VisitIfThenElseExpr, ConstrMutator.Base_VisitExpr_Call;
    try solve [discipline].
  apply disciplined_bind; [discipline | intros _].
  destruct (String.eqb op op_if_then_else).
  - destruct H as [|c args Hc [|t args' Ht [|f args'' Hf _]]]; discipline.
  - apply disciplined_bind; [by apply mutator_MutateArray_disciplined|].
    intros ?. discipline.
Qed.

Lemma mutator_VisitStmt_disciplined s :
  disciplined (ConstrMutator.VisitStmt s).
Proof.
  pose proof mutator_VisitExpr_disciplined as HE.
  induction s using Stmt_nested_ind; simpl;
    unfold ConstrMutator.VisitStmt_LetStmt, ConstrMutator.VisitStmt_AttrStmt,
      ConstrMutator.VisitStmt_AssertStmt, ConstrMutator.VisitStmt_IfThenElse,
      ConstrMutator.VisitStmt_For, ConstrMutator.VisitStmt_While,
      ConstrMutator.Base_VisitStmt_SeqStmt, ConstrMutator.Base_VisitStmt_Evaluate;
    try solve [discipline].
  apply disciplined_bind; [discipline | intros _].
  apply disciplined_bind; [by apply mutator_MutateArray_disciplined|].
  intros ?. discipline.
Qed.

(* ===================================================================== *)
(** ** Computing the events of a disciplined computation                  *)
(* ===================================================================== *)

Section equations.
Context {A B : Type}.
Implicit Types (m : M A) (k : A → M B) (stk : list Constr).

Lemma events_ret (a : A) stk : events (ret a) stk = [].
Proof. done. Qed.

Lemma result_ret (a : A) stk : result (ret a) stk = Done a.
Proof. done. Qed.

Lemma events_bind m k stk :
  disciplined m → (∀ a, disciplined (k a)) →
  events (bind m k) stk
  = events m stk ++ match result m stk with
                    | Done a => events (k a) stk
                    | Throw => []
                    end.
Proof.
  intros Hm Hk. pose proof (disciplined_runs m stk Hm) as Hr.
  destruct (result m stk) as [a|].
  - eapply runs_events, runs_bind_done; [exact Hr|].
    by apply disciplined_runs.
  - rewrite app_nil_r. eapply runs_events, runs_bind_throw, Hr.
Qed.

Lemma result_bind m k stk :
  disciplined m → (∀ a, disciplined (k a)) →
  result (bind m k) stk
  = match result m stk with
    | Done a => result (k a) stk
    | Throw => Throw
    end.
Proof.
  intros Hm Hk. pose proof (disciplined_runs m stk Hm) as Hr.
  destruct (result m stk) as [a|].
  - eapply runs_result, runs_bind_done; [exact Hr|].
    by apply disciplined_runs.
  - eapply runs_result, runs_bind_throw, Hr.
Qed.

Lemma events_scoped (c : Constr) m stk :
  disciplined m →
  events (scoped c m) stk
  = EvPush c (stk ++ [c]) :: events m (stk ++ [c]) ++ [EvPop stk].
Proof.
  intros Hm. eapply runs_events, runs_scoped. by apply disciplined_runs.
Qed.

Lemma result_scoped (c : Constr) m stk :
  disciplined m → result (scoped c m) stk = result m (stk ++ [c]).
Proof.
  intros Hm. eapply runs_result, runs_scoped. by apply disciplined_runs.
Qed.

End equations.

(** A visit logs the node it is entered on, with the stack of that moment,
    before anything else. *)
Lemma head_event {A} (f : list Constr → event) (rest : M A) stk :
  disciplined rest →
  events (observe f ;; rest) stk = f stk :: events rest stk.
Proof.
  intros Hr. unfold events, bind, observe, start. simpl.
  by rewrite (disciplined_runs rest stk Hr [f stk]).
Qed.

Lemma visitor_VisitExpr_head e stk :
  ∃ L, events (ConstrVisitor.VisitExpr e) stk = EvExpr e stk :: L.
Proof.
  pose proof visitor_VisitExpr_disciplined as HE.
  destruct e; simpl; eexists; apply head_event;
    unfold ConstrVisitor.Base_VisitExpr_Binary, ConstrVisitor.Base_VisitExpr_Not,
      ConstrVisitor.VisitIfThenElseExpr, ConstrVisitor.Base_VisitExpr_Call;
    try solve [discipline].
  destruct (String.eqb op op_if_then_else); [discipline|].
  apply visitor_VisitArray_disciplined, Forall_true, HE.
Qed.

Lemma visitor_VisitStmt_head s stk :
  ∃ L, events (ConstrVisitor.VisitStmt s) stk = EvStmt s stk :: L.
Proof.
  pose proof visitor_VisitExpr_disciplined as HE.
  pose proof visitor_VisitStmt_disciplined as HS.
  destruct s; simpl; eexists; apply head_event;
    unfold ConstrVisitor.VisitStmt_LetStmt, ConstrVisitor.VisitStmt_AttrStmt,
      ConstrVisitor.VisitStmt_AssertStmt, ConstrVisitor.VisitStmt_IfThenElse,
      ConstrVisitor.VisitStmt_For, ConstrVisitor.VisitStmt_While,
      ConstrVisitor.Base_VisitStmt_LetStmt, ConstrVisitor.Base_VisitStmt_AttrStmt,
      ConstrVisitor.Base_VisitStmt_AssertStmt, ConstrVisitor.Base_VisitStmt_For,
      ConstrVisitor.Base_VisitStmt_SeqStmt, ConstrVisitor.Base_VisitStmt_Evaluate;
    try solve [discipline].
  apply visitor_VisitArray_disciplined, Forall_true, HS.
Qed.

Lemma mutator_VisitExpr_head e stk :
  ∃ L, events (ConstrMutator.VisitExpr e) stk = EvExpr e stk :: L.
Proof.
  pose proof mutator_VisitExpr_disciplined as HE.
  destruct e; simpl; eexists; apply head_event;
    unfold ConstrMutator.Base_VisitExpr_Binary, ConstrMutator.Base_VisitExpr_Not,
      ConstrMutator.VisitIfThenElseExpr, ConstrMutator.Base_VisitExpr_Call;
    try solve [discipline].
  destruct (String.eqb op op_if_then_else); [discipline|].
  apply disciplined_bind; [|intros ?; discipline].
  apply mutator_MutateArray_disciplined, Forall_true, HE.
Qed.

Lemma mutator_VisitStmt_head s stk :
  ∃ L, events (ConstrMutator.VisitStmt s) stk = EvStmt s stk :: L.
Proof.
  pose proof mutator_VisitExpr_disciplined as HE.
  pose proof mutator_VisitStmt_disciplined as HS.
  destruct s; simpl; eexists; apply head_event;
    unfold ConstrMutator.VisitStmt_LetStmt, ConstrMutator.VisitStmt_AttrStmt,
      ConstrMutator.VisitStmt_AssertStmt, ConstrMutator.VisitStmt_IfThenElse,
      ConstrMutator.VisitStmt_For, ConstrMutator.VisitStmt_While,
      ConstrMutator.Base_VisitStmt_SeqStmt, ConstrMutator.Base_VisitStmt_Evaluate;
    try solve [discipline].
  apply disciplined_bind; [|intros ?; discipline].
  apply mutator_MutateArray_disciplined, Forall_true, HS.
Qed.

(** What a disciplined computation does to an arbitrary walker. *)
Lemma disciplined_stack {A} (m : M A) (w : walker) :
  disciplined m →
  constr_stack_ (m w).2 = constr_stack_ w ∧
  trace (m w).2 = trace w ++ events m (constr_stack_ w).
Proof.
  intros Hm. destruct w as [stk tr]. simpl.
  by rewrite (disciplined_runs m stk Hm tr).
Qed.

(* ===================================================================== *)
(** ** Scope balance                                                      *)
(* ===================================================================== *)

(** C6.  Whatever the tree and whatever stack the walker is entered with,
    a walk of either walker, whether it returns or throws, hands the stack
    back as it found it, and the pushes and pops it logged are equal in
    number.  A new walker has an empty stack, which is therefore empty
    again after the walk. *)
Theorem scope_balance (s : Stmt) (e : PrimExpr) (w : walker) :
  (constr_stack_ (ConstrVisitor.VisitStmt s w).2 = constr_stack_ w ∧
   constr_stack_ (ConstrVisitor.VisitExpr e w).2 = constr_stack_ w ∧
   constr_stack_ (ConstrMutator.VisitStmt s w).2 = constr_stack_ w ∧
   constr_stack_ (ConstrMutator.VisitExpr e w).2 = constr_stack_ w) ∧
  (constr_stack_ (ConstrVisitor.VisitStmt s (start [])).2 = [] ∧
   constr_stack_ (ConstrVisitor.VisitExpr e (start [])).2 = [] ∧
   constr_stack_ (ConstrMutator.VisitStmt s (start [])).2 = [] ∧
   constr_stack_ (ConstrMutator.VisitExpr e (start [])).2 = []) ∧
  (pushes (events (ConstrVisitor.VisitStmt s) (constr_stack_ w))
   = pops (events (ConstrVisitor.VisitStmt s) (constr_stack_ w)) ∧
   pushes (events (ConstrVisitor.VisitExpr e) (constr_stack_ w))
   = pops (events (ConstrVisitor.VisitExpr e) (constr_stack_ w)) ∧
   pushes (events (ConstrMutator.VisitStmt s) (constr_stack_ w))
   = pops (events (ConstrMutator.VisitStmt s) (constr_stack_ w)) ∧
   pushes (events (ConstrMutator.VisitExpr e) (constr_stack_ w))
   = pops (events (ConstrMutator.VisitExpr e) (constr_stack_ w))).
Proof.
  pose proof (visitor_VisitStmt_disciplined s) as H1.
  pose proof (visitor_VisitExpr_disciplined e) as H2.
  pose proof (mutator_VisitStmt_disciplined s) as H3.
  pose proof (mutator_VisitExpr_disciplined e) as H4.
  split; [|split].
  - repeat split; by apply disciplined_stack.
  - repeat split; by apply (disciplined_stack _ (start [])).
  - repeat split; by apply disciplined_balanced.
Qed.

(* ===================================================================== *)
(** ** Guarded blocks followed by code that logs nothing                 *)
(* ===================================================================== *)

Lemma silent_if {A} (b : bool) (x y : A) stk :
  events (if b then ret x else ret y) stk = [].
Proof. by destruct b. Qed.

Lemma events_scoped_silent {A B} (c : Constr) (m : M A) (k : A → M B) stk :
  disciplined m → (∀ a, disciplined (k a)) → (∀ a, events (k a) stk = []) →
  events (a <- scoped c m ;; k a) stk
  = EvPush c (stk ++ [c]) :: events m (stk ++ [c]) ++ [EvPop stk].
Proof.
  intros Hm Hk Hs. rewrite events_bind; [|by apply disciplined_scoped|done].
  rewrite events_scoped by done.
  destruct (result (scoped c m) stk); by rewrite ?Hs, app_nil_r.
Qed.

Lemma two_guards (R B : Constr) stk : (stk ++ [R]) ++ [B] = stk ++ [R; B].
Proof. by rewrite <- app_assoc. Qed.

(* ===================================================================== *)
(** ** Assertions                                                         *)
(* ===================================================================== *)

Lemma result_done_bind {A B} (m : M A) (k : A → M B) stk b :
  disciplined m → (∀ a, disciplined (k a)) →
  result (bind m k) stk = Done b →
  ∃ a, result m stk = Done a ∧ result (k a) stk = Done b.
Proof.
  intros Hm Hk. rewrite result_bind by done.
  destruct (result m stk) as [a|]; [|done]. by exists a.
Qed.

Ltac pick_disjunct := first [reflexivity | left; pick_disjunct | right; pick_disjunct].

Ltac find_elem :=
  repeat (rewrite elem_of_cons || rewrite elem_of_app); solve [pick_disjunct].

Ltac refute_elem H :=
  repeat (apply elem_of_cons in H as [H|H]; [discriminate H|]);
  by apply elem_of_nil in H.

(** C4, as stated, fails on [assert(x > 0, "x must be positive")
    { evaluate(x) }] in both walkers: neither log has a visit of the
    message with the stack the assertion was entered with. *)
Lemma assert_message_sees_fact :
  ¬ assert_only_body_guarded
      (events (ConstrVisitor.VisitStmt Examples.checked) []) []
      (Constr_expr Examples.x_positive false)
      Examples.x_positive Examples.message (Evaluate (EVar Examples.x)) ∧
  ¬ assert_only_body_guarded
      (events (ConstrMutator.VisitStmt Examples.checked) []) []
      (Constr_expr Examples.x_positive false)
      Examples.x_positive Examples.message (Evaluate (EVar Examples.x)).
Proof.
  split; intros (_ & H & _); unfold visited_expr in H; vm_compute in H;
    refute_elem H.
Qed.

(* ===================================================================== *)
(** ** Identity of rewritten conditional values                           *)
(* ===================================================================== *)

(** Whatever its operands become, a conditional value never comes back
    as the object it was: every path through [VisitIfThenElseExpr] ends in
    a call of the [Select] constructor. *)
Lemma select_never_same (c t f : PrimExpr) (stk : list Constr) :
  result (ConstrMutator.VisitExpr (Select c t f)) stk
  ≠ Done ConstrMutator.SameObject.
Proof.
  pose proof mutator_VisitExpr_disciplined as HME.
  simpl. unfold ConstrMutator.VisitIfThenElseExpr.
  rewrite result_bind; [|discipline..]. simpl.
  rewrite result_bind; [|discipline..].
  destruct (result (ConstrMutator.VisitExpr c) stk) as [r_c|]; [|done].
  rewrite result_bind; [|discipline..].
  destruct (result (scoped _ _) stk) as [r_t|]; [|done].
  rewrite result_bind; [|discipline..].
  destruct (result (scoped _ _) stk) as [r_f|]; [|done].
  by destruct (_ && _).
Qed.

(** Outside conditional values the rewriting walker preserves identity:
    an expression without a [Select] node and without an if_then_else
    call is returned as the object it was. *)
Lemma MutateArray_same (args : list PrimExpr) (stk : list Constr) :
  Forall (λ e, ∀ stk', result (ConstrMutator.VisitExpr e) stk'
                       = Done ConstrMutator.SameObject) args →
  result (ConstrMutator.MutateArray ConstrMutator.VisitExpr args) stk
  = Done ConstrMutator.SameObject.
Proof.
  pose proof mutator_VisitExpr_disciplined as HME.
  induction 1 as [|e args He _ IH]; simpl; [done|].
  assert (Harr : disciplined (ConstrMutator.MutateArray
                                ConstrMutator.VisitExpr args))
    by apply mutator_MutateArray_disciplined, Forall_true, HME.
  rewrite result_bind; [|discipline..]. rewrite He.
  rewrite result_bind; [|discipline..]. by rewrite IH.
Qed.

Lemma identity_without_conditional (e : PrimExpr) :
  ConstrMutator.has_conditional e = false →
  ∀ stk, result (ConstrMutator.VisitExpr e) stk = Done ConstrMutator.SameObject.
Proof.
  pose proof mutator_VisitExpr_disciplined as HME.
  induction e as [v|z|s|op a b IHa IHb|a IHa|c t f _ _ _|op args IH]
    using PrimExpr_nested_ind; simpl; intros Hfree stk; try done.
  - apply orb_false_iff in Hfree as [Ha Hb].
    unfold ConstrMutator.Base_VisitExpr_Binary.
    rewrite result_bind; [|discipline..]. simpl.
    rewrite result_bind; [|discipline..]. rewrite (IHa Ha).
    rewrite result_bind; [|discipline..]. by rewrite (IHb Hb).
  - unfold ConstrMutator.Base_VisitExpr_Not.
    rewrite result_bind; [|discipline..]. simpl.
    rewrite result_bind; [|discipline..]. by rewrite (IHa Hfree).
  - apply orb_false_iff in Hfree as [Hop Hargs]. rewrite Hop.
    assert (Hall : Forall (λ e, ∀ stk', result (ConstrMutator.VisitExpr e) stk'
                                        = Done ConstrMutator.SameObject) args).
    { clear Hop. induction IH as [|e args He _ IHargs]; [constructor|].
      simpl in Hargs. apply orb_false_iff in Hargs as [H1 H2].
      constructor; [by apply He | by apply IHargs]. }
    assert (Harr : disciplined (ConstrMutator.MutateArray
                                  ConstrMutator.VisitExpr args))
      by apply mutator_MutateArray_disciplined, Forall_true, HME.
    unfold ConstrMutator.Base_VisitExpr_Call.
    rewrite result_bind; [|discipline..]. simpl.
    rewrite result_bind; [|discipline..].
    by rewrite (MutateArray_same _ _ Hall).
Qed.

(** C1, on [select(x > 0, x, 0 - x)] and on
    [tir.if_then_else(x > 0, x, 0 - x)].  The rewriting walker returns the
    condition, the true value and the false value as the objects they
    were, and yet hands back a newly constructed [Select] node, for the
    call as well; a loop whose children are unchanged is returned as the
    object it was. *)
Theorem select_rebuilt_when_unchanged :
  result (ConstrMutator.VisitExpr Examples.x_positive) []
  = Done ConstrMutator.SameObject ∧
  result (ConstrMutator.VisitExpr (EVar Examples.x))
         [Constr_expr Examples.x_positive false]
  = Done ConstrMutator.SameObject ∧
  result (ConstrMutator.VisitExpr (IntImm 0 - EVar Examples.x)%tir)
         [Constr_expr (Not Examples.x_positive) false]
  = Done ConstrMutator.SameObject ∧
  result (ConstrMutator.VisitExpr Examples.abs_select) []
  = Done (ConstrMutator.NewObject Examples.abs_select) ∧
  result (ConstrMutator.VisitExpr Examples.abs_call) []
  = Done (ConstrMutator.NewObject Examples.abs_select) ∧
  result (ConstrMutator.VisitStmt Examples.loop) []
  = Done ConstrMutator.SameObject.
Proof. repeat split. Qed.

(* ===================================================================== *)
(** ** Attribute statements in the rewriting walker                       *)
(* ===================================================================== *)

(** Whatever the attribute, once the value is rewritten the rewriting
    walker rewrites the body on the stack the statement was entered with;
    what follows is nothing, or one push with its pop right behind. *)
Lemma attr_body_on_entry_stack (node : ObjectRef) (key : AttrKey)
      (value : PrimExpr) (body : Stmt) (stk : list Constr)
      (r_value : ConstrMutator.Rewritten PrimExpr) :
  result (ConstrMutator.VisitExpr value) stk = Done r_value →
  ∃ L, events (ConstrMutator.VisitStmt_AttrStmt ConstrMutator.VisitExpr
                 ConstrMutator.VisitStmt node key value body) stk
       = events (ConstrMutator.VisitExpr value) stk ++
         events (ConstrMutator.VisitStmt body) stk ++ L ∧
       (L = [] ∨ ∃ c, L = [EvPush c (stk ++ [c]); EvPop stk]).
Proof.
  intros Hv.
  pose proof mutator_VisitExpr_disciplined as HME.
  pose proof mutator_VisitStmt_disciplined as HMS.
  unfold ConstrMutator.VisitStmt_AttrStmt.
  rewrite events_bind; [|discipline..]. rewrite Hv.
  rewrite events_bind; [|discipline..].
  eexists. split; [reflexivity|].
  destruct (result (ConstrMutator.VisitStmt body) stk) as [r_body|];
    [|by left].
  rewrite events_bind; [|discipline..].
  destruct key, node; simpl; rewrite ?removelast_last, ?silent_if;
    first [by left | right; eexists; reflexivity].
Qed.

(** C2, on [attr [x > 0] "assume" = 1 { evaluate(x) }] and on
    [attr [tx] "thread_extent" = 128 { evaluate(tx) }].  The rewriting
    walker rewrites the body on the stack the statement was entered with
    and pushes the fact of the attribute only afterwards, to pop it at
    once; the read-only walker visits the same body under the fact. *)
Theorem attr_fact_pushed_after_body :
  let assumption := Constr_expr Examples.x_positive true in
  let threads :=
    Constr_range Examples.tx (FromMinExtent (IntImm 0) (IntImm 128)) in
  events (ConstrMutator.VisitStmt Examples.assumed) []
  = [EvStmt Examples.assumed [];
     EvExpr (IntImm 1) [];
     EvStmt (Evaluate (EVar Examples.x)) [];
     EvExpr (EVar Examples.x) [];
     EvPush assumption [assumption];
     EvPop []] ∧
  events (ConstrMutator.VisitStmt Examples.launch) []
  = [EvStmt Examples.launch [];
     EvExpr (IntImm 128) [];
     EvStmt (Evaluate (EVar Examples.tx)) [];
     EvExpr (EVar Examples.tx) [];
     EvPush threads [threads];
     EvPop []] ∧
  events (ConstrVisitor.VisitStmt Examples.assumed) []
  = [EvStmt Examples.assumed [];
     EvPush assumption [assumption];
     EvExpr (IntImm 1) [assumption];
     EvStmt (Evaluate (EVar Examples.x)) [assumption];
     EvExpr (EVar Examples.x) [assumption];
     EvPop []].
Proof. repeat split. Qed.

(* ===================================================================== *)
(** ** Conditions of conditional values in the read-only walker            *)
(* ===================================================================== *)

(** C3, on [select(x > 0, x, 0 - x)] and on
    [tir.if_then_else(x > 0, x, 0 - x)].  The read-only walker visits the
    node and its two branches, and never the condition [x > 0]; the
    rewriting walker visits the condition first, with nothing pushed. *)
Theorem select_condition_not_visited :
  let pos := Constr_expr Examples.x_positive false in
  let neg := Constr_expr (Not Examples.x_positive) false in
  let branches :=
    [EvPush pos [pos];
     EvExpr (EVar Examples.x) [pos];
     EvPop [];
     EvPush neg [neg];
     EvExpr (IntImm 0 - EVar Examples.x)%tir [neg];
     EvExpr (IntImm 0) [neg];
     EvExpr (EVar Examples.x) [neg];
     EvPop []] in
  events (ConstrVisitor.VisitExpr Examples.abs_select) []
  = EvExpr Examples.abs_select [] :: branches ∧
  events (ConstrVisitor.VisitExpr Examples.abs_call) []
  = EvExpr Examples.abs_call [] :: branches ∧
  (∀ stk, ¬ visited_expr (events (ConstrVisitor.VisitExpr Examples.abs_select) [])
              Examples.x_positive stk) ∧
  (∀ stk, ¬ visited_expr (events (ConstrVisitor.VisitExpr Examples.abs_call) [])
              Examples.x_positive stk) ∧
  events (ConstrMutator.VisitExpr Examples.abs_select) []
  = EvExpr Examples.abs_select [] ::
    EvExpr Examples.x_positive [] ::
    EvExpr (EVar Examples.x) [] ::
    EvExpr (IntImm 0) [] :: branches.
Proof.
  repeat split; intros stk H; unfold visited_expr in H; vm_compute in H;
    refute_elem H.
Qed.

(* ===================================================================== *)
(** ** Facts and fact sets                                                *)
(* ===================================================================== *)

(** C8.  [ToGenericConstr] returns the stored expression of a boolean
    fact, [var == value] for a value binding and
    [var >= min && var < min + extent] for a range binding. *)
Theorem ToGenericConstr_cases :
  (∀ e a, ToGenericConstr (Constr_expr e a) = e) ∧
  (∀ v e, ToGenericConstr (Constr_value v e) = (EVar v == e)%tir) ∧
  (∀ v m ext,
      ToGenericConstr (Constr_range v (FromMinExtent m ext))
      = Binary And (EVar v >= m)%tir (EVar v < (m + ext))%tir).
Proof. repeat split. Qed.

(** C9.  [Substitute] applies the mapping to the generic predicate of the
    fact and wraps the result as a plain boolean fact: the kind of the result is
    [kConstr] and it is not an assumption, whatever the fact was. *)
Theorem Substitute_downgrades `{Substitution VarMap} (f : Constr)
        (subs : VarMap) :
  Substitute f subs
  = Constr_expr (tir_Substitute (ToGenericConstr f) subs) false ∧
  kind (Substitute f subs) = kConstr ∧
  is_assume (Substitute f subs) = false ∧
  ToGenericConstr (Substitute f subs)
  = tir_Substitute (ToGenericConstr f) subs.
Proof. repeat split. Qed.

Section can_prove.
Context `{ArithAnalyzer A}.

Lemma Populate_at (c : Constr) (l : nat) (a : A) (h : gmap nat A) :
  Populate c l (<[l := a]> h) = <[l := enter c a]> h.
Proof. destruct c; simpl; apply alter_insert_eq. Qed.

Lemma ConstrSet_Populate_at (cs : list Constr) (l : nat) (a : A)
      (h : gmap nat A) :
  ConstrSet_Populate (mkConstrSet cs) l (<[l := a]> h)
  = <[l := replay cs a]> h.
Proof.
  unfold ConstrSet_Populate, replay. simpl. revert a.
  induction cs as [|c cs IH]; intros a; simpl; [done|].
  by rewrite Populate_at, IH.
Qed.

(** C10.  [CanProve] answers with the verdict of a new analyzer into
    which the facts of the set have been replayed in the order of
    [constrs_], that is, in insertion order; the analyzers that exist
    when it is called are the same, in the same state, when it returns,
    and it has no access to modify the set. *)
Theorem CanProve_local_analyzer (self : ConstrSet) (expr : PrimExpr)
        (c : Constr) (h : gmap nat A) :
  CanProve self expr h
  = ((analyzer_CanProve expr (replay (constrs_ self) analyzer_new)).1, h) ∧
  replay (constrs_ (AddConstr self c)) analyzer_new
  = enter c (replay (constrs_ self) analyzer_new).
Proof.
  split.
  - assert (Hfresh : h !! fresh (dom h) = None)
      by apply not_elem_of_dom, is_fresh.
    destruct self as [cs].
    unfold CanProve, declare_Analyzer, call_CanProve, destroy_Analyzer.
    rewrite ConstrSet_Populate_at, lookup_insert_eq. simpl.
    destruct (analyzer_CanProve expr (replay cs analyzer_new)) as [b a'].
    simpl. f_equal. rewrite delete_insert_eq. by apply delete_insert_id.
  - unfold replay, AddConstr. simpl. by rewrite foldl_app.
Qed.

End can_prove.


(* ===================================================================== *)
(** ** Fact sets: substitution, extension, replay                         *)
(* ===================================================================== *)

Lemma push_back_fold {T} (f : T → Constr) (acc : list Constr) (l : list T) :
  foldl (λ set x, mkConstrSet (constrs_ set ++ [f x])) (mkConstrSet acc) l
  = mkConstrSet (acc ++ map f l).
Proof.
  revert acc. induction l as [|x l IH]; intros acc; simpl.
  - by rewrite app_nil_r.
  - rewrite IH. by rewrite <- app_assoc.
Qed.

(** X1.  [ConstrSet::Substitute] is element-wise: the new set holds, in
    the same order, the substituted fact of each fact of the set, so it
    has as many facts, all of them plain boolean facts that are not
    assumptions. *)
Theorem ConstrSet_Substitute_elementwise `{Substitution VarMap}
        (self : ConstrSet) (subs : VarMap) :
  constrs_ (ConstrSet_Substitute self subs)
  = map (λ c, Substitute c subs) (constrs_ self) ∧
  length (constrs_ (ConstrSet_Substitute self subs))
  = length (constrs_ self) ∧
  Forall (λ c, kind c = kConstr ∧ is_assume c = false)
         (constrs_ (ConstrSet_Substitute self subs)).
Proof.
  assert (E : constrs_ (ConstrSet_Substitute self subs)
              = map (λ c, Substitute c subs) (constrs_ self)).
  { unfold ConstrSet_Substitute.
    by rewrite (push_back_fold (λ c, Substitute c subs) []). }
  rewrite E. split; [done|]. split; [by rewrite length_map|].
  apply Forall_forall. intros c Hc.
  apply list_elem_of_In, in_map_iff in Hc as (c0 & <- & _). done.
Qed.

(** X2.  [Extend] appends the facts of the other set behind the facts of
    the set, keeping both orders; extending by an empty set changes
    nothing, [Extend] is associative, and [Substitute] distributes over
    it. *)
Theorem Extend_appends `{Substitution VarMap} (a b c : ConstrSet)
        (subs : VarMap) :
  constrs_ (Extend a b) = constrs_ a ++ constrs_ b ∧
  Extend a (mkConstrSet []) = a ∧
  Extend (Extend a b) c = Extend a (Extend b c) ∧
  ConstrSet_Substitute (Extend a b) subs
  = Extend (ConstrSet_Substitute a subs) (ConstrSet_Substitute b subs).
Proof.
  assert (E : ∀ x y, Extend x y = mkConstrSet (constrs_ x ++ constrs_ y)).
  { intros [xs] [ys]. unfold Extend. simpl.
    rewrite (push_back_fold (λ c, c) xs ys). by rewrite map_id. }
  assert (S : ∀ x, ConstrSet_Substitute x subs
                   = mkConstrSet (map (λ c, Substitute c subs) (constrs_ x))).
  { intros x. unfold ConstrSet_Substitute.
    by rewrite (push_back_fold (λ c, Substitute c subs) []). }
  split; [by rewrite E|]. split; [|split].
  - rewrite E. destruct a as [xs]. simpl. by rewrite app_nil_r.
  - rewrite !E. simpl. by rewrite app_assoc.
  - rewrite !S, !E. simpl. by rewrite map_app.
Qed.

Section populate.
Context `{ArithAnalyzer A}.

Lemma Populate_alter (c : Constr) (l : nat) (h : gmap nat A) :
  Populate c l h = alter (enter c) l h.
Proof. by destruct c. Qed.

Lemma alter_twice (f g : A → A) (l : nat) (h : gmap nat A) :
  alter f l (alter g l h) = alter (λ a, f (g a)) l h.
Proof.
  apply map_eq. intros j. destruct (decide (l = j)) as [->|Hne].
  - rewrite !lookup_alter_eq. by destruct (h !! j).
  - by rewrite !lookup_alter_ne.
Qed.

Lemma ConstrSet_Populate_alter (cs : list Constr) (l : nat)
      (h : gmap nat A) :
  ConstrSet_Populate (mkConstrSet cs) l h = alter (replay cs) l h.
Proof.
  unfold ConstrSet_Populate, replay. simpl. revert h.
  induction cs as [|c cs IH]; intros h; simpl.
  - symmetry. by apply alter_id.
  - by rewrite IH, Populate_alter, alter_twice.
Qed.

(** X3.  [ConstrSet::Populate] acts on the analyzer it is handed and on
    nothing else: that analyzer, if there is one at the address, receives
    the facts of the set in order; the rest of the store is the same
    afterwards, and no analyzer appears or disappears. *)
Theorem ConstrSet_Populate_frame (self : ConstrSet) (l : nat)
        (h : gmap nat A) :
  ConstrSet_Populate self l h !! l = replay (constrs_ self) <$> h !! l ∧
  delete l (ConstrSet_Populate self l h) = delete l h ∧
  dom (ConstrSet_Populate self l h) = dom h.
Proof.
  destruct self as [cs]. rewrite ConstrSet_Populate_alter. simpl.
  split; [by rewrite lookup_alter_eq|].
  split; [apply delete_alter_eq | apply dom_alter_L].
Qed.

(** X4.  Populating an analyzer from [Extend a b] is populating it from
    [a] and then from [b]; populating from [AddConstr a c] is populating
    from [a] and then entering [c]. *)
Theorem ConstrSet_Populate_composes (a b : ConstrSet) (c : Constr) (l : nat)
        (h : gmap nat A) :
  ConstrSet_Populate (Extend a b) l h
  = ConstrSet_Populate b l (ConstrSet_Populate a l h) ∧
  ConstrSet_Populate (AddConstr a c) l h
  = Populate c l (ConstrSet_Populate a l h).
Proof.
  assert (E : Extend a b = mkConstrSet (constrs_ a ++ constrs_ b)).
  { destruct a as [xs], b as [ys]. unfold Extend. simpl.
    rewrite (push_back_fold (λ c, c) xs ys). by rewrite map_id. }
  rewrite E. unfold ConstrSet_Populate, AddConstr. simpl.
  by rewrite !foldl_app.
Qed.

(** X5.  After [Substitute] the binding shape is gone for the analyzer as
    well: populating from a substituted set calls [EnterConstraint] once
    per fact, on the substituted generic predicate, in order, and never
    [Bind]. *)
Theorem Populate_after_Substitute `{Substitution VarMap} (self : ConstrSet)
        (subs : VarMap) (l : nat) (h : gmap nat A) :
  ConstrSet_Populate (ConstrSet_Substitute self subs) l h
  = alter (enter_substituted (constrs_ self) subs) l h.
Proof.
  assert (S : ConstrSet_Substitute self subs
              = mkConstrSet (map (λ c, Substitute c subs) (constrs_ self))).
  { unfold ConstrSet_Substitute.
    by rewrite (push_back_fold (λ c, Substitute c subs) []). }
  rewrite S, ConstrSet_Populate_alter. clear S. apply alter_ext. intros a _.
  unfold replay, enter_substituted. revert a.
  induction (constrs_ self) as [|c cs IH]; intros a; simpl; [done|].
  by rewrite IH.
Qed.

End populate.


(* ===================================================================== *)
(** ** Properties shared by every walk                                    *)
(* ===================================================================== *)

(** A property of computations that the monad operations preserve holds
    of every visit of either walker. *)
Section every_walk.
Variable P : ∀ T, M T → Prop.
Hypothesis P_ret : ∀ T (a : T), P T (ret a).
Hypothesis P_throw : ∀ T, P T throw.
Hypothesis P_bind :
  ∀ T U (m : M T) (k : T → M U), P T m → (∀ a, P U (k a)) → P U (bind m k).
Hypothesis P_scoped : ∀ T (c : Constr) (m : M T), P T m → P T (scoped c m).
Hypothesis P_expr : ∀ e, P unit (observe (EvExpr e)).
Hypothesis P_stmt : ∀ s, P unit (observe (EvStmt s)).

Ltac closed :=
  repeat first
    [ assumption
    | progress intros
    | apply P_ret | apply P_throw | apply P_expr | apply P_stmt
    | apply P_scoped
    | apply P_bind
    | match goal with
      | H : ∀ x, P _ (_ x) |- P _ (_ _) => apply H
      | |- P _ (if ?b then _ else _) => destruct b
      | |- P _ (match ?x with _ => _ end) => destruct x
      end ].

Lemma every_visitor_array {T} (visit : T → M unit) l :
  Forall (λ x, P unit (visit x)) l → P unit (ConstrVisitor.VisitArray visit l).
Proof using All. induction 1; simpl; closed. Qed.

Lemma every_mutator_array {T} (visit : T → M (ConstrMutator.Rewritten T)) l :
  Forall (λ x, P _ (visit x)) l → P _ (ConstrMutator.MutateArray visit l).
Proof using All. induction 1; simpl; closed. Qed.

Lemma every_visitor_expr e : P unit (ConstrVisitor.VisitExpr e).
Proof using All.
  induction e using PrimExpr_nested_ind; simpl;
    unfold ConstrVisitor.Base_VisitExpr_Binary, ConstrVisitor.Base_VisitExpr_Not,
      ConstrVisitor.VisitIfThenElseExpr, ConstrVisitor.Base_VisitExpr_Call;
    try solve [closed].
  apply P_bind; [closed | intros _].
  destruct (String.eqb op op_if_then_else).
  - destruct H as [|c args Hc [|t args' Ht [|f args'' Hf _]]]; closed.
  - by apply every_visitor_array.
Qed.

Lemma every_visitor_stmt s : P unit (ConstrVisitor.VisitStmt s).
Proof using All.
  pose proof every_visitor_expr as HE.
  induction s using Stmt_nested_ind; simpl;
    unfold ConstrVisitor.VisitStmt_LetStmt, ConstrVisitor.VisitStmt_AttrStmt,
      ConstrVisitor.VisitStmt_AssertStmt, ConstrVisitor.VisitStmt_IfThenElse,
      ConstrVisitor.VisitStmt_For, ConstrVisitor.VisitStmt_While,
      ConstrVisitor.Base_VisitStmt_LetStmt, ConstrVisitor.Base_VisitStmt_AttrStmt,
      ConstrVisitor.Base_VisitStmt_AssertStmt, ConstrVisitor.Base_VisitStmt_For,
      ConstrVisitor.Base_VisitStmt_SeqStmt, ConstrVisitor.Base_VisitStmt_Evaluate,
      Downcast_PrimExpr, Downcast_IterVar;
    try solve [closed].
  apply P_bind; [closed | intros _]. by apply every_visitor_array.
Qed.

Lemma every_mutator_expr e : P _ (ConstrMutator.VisitExpr e).
Proof using All.
  induction e using PrimExpr_nested_ind; simpl;
    unfold ConstrMutator.Base_VisitExpr_Binary, ConstrMutator.Base_VisitExpr_Not,
      ConstrMutator.VisitIfThenElseExpr, ConstrMutator.Base_VisitExpr_Call;
    try solve [closed].
  apply P_bind; [closed | intros _].
  destruct (String.eqb op op_if_then_else).
  - destruct H as [|c args Hc [|t args' Ht [|f args'' Hf _]]]; closed.
  - apply P_bind; [by apply every_mutator_array | closed].
Qed.

Lemma every_mutator_stmt s : P _ (ConstrMutator.VisitStmt s).
Proof using All.
  pose proof every_mutator_expr as HE.
  induction s using Stmt_nested_ind; simpl;
    unfold ConstrMutator.VisitStmt_LetStmt, ConstrMutator.VisitStmt_AttrStmt,
      ConstrMutator.VisitStmt_AssertStmt, ConstrMutator.VisitStmt_IfThenElse,
      ConstrMutator.VisitStmt_For, ConstrMutator.VisitStmt_While,
      ConstrMutator.Base_VisitStmt_SeqStmt, ConstrMutator.Base_VisitStmt_Evaluate,
      Downcast_PrimExpr, Downcast_IterVar;
    try solve [closed].
  apply P_bind; [closed | intros _].
  apply P_bind; [by apply every_mutator_array | closed].
Qed.

End every_walk.

Lemma lifo_app a L1 b L2 c : lifo a L1 b → lifo b L2 c → lifo a (L1 ++ L2) c.
Proof.
  revert a. induction L1 as [|ev L1 IH]; intros a; simpl.
  - by intros ->.
  - destruct ev; intros [H1 H2] H3; (split; [exact H1|]); by eapply IH.
Qed.

Lemma orderly_visits :
  (∀ e, orderly _ (ConstrVisitor.VisitExpr e)) ∧
  (∀ s, orderly _ (ConstrVisitor.VisitStmt s)) ∧
  (∀ e, orderly _ (ConstrMutator.VisitExpr e)) ∧
  (∀ s, orderly _ (ConstrMutator.VisitStmt s)).
Proof.
  assert (Hret : ∀ T (a : T), orderly T (ret a))
    by (split; [apply disciplined_ret | done]).
  assert (Hthrow : ∀ T, orderly T throw)
    by (split; [apply disciplined_throw | done]).
  assert (Hbind : ∀ T U (m : M T) (k : T → M U),
             orderly T m → (∀ a, orderly U (k a)) → orderly U (bind m k)).
  { intros T U m k [Dm Lm] Hk.
    assert (Dk : ∀ a, disciplined (k a)) by (intros a; apply Hk).
    split; [by apply disciplined_bind|]. intros stk.
    rewrite events_bind by done.
    eapply lifo_app; [apply Lm|].
    destruct (result m stk) as [a|]; [apply Hk | done]. }
  assert (Hscoped : ∀ T (c : Constr) (m : M T),
             orderly T m → orderly T (scoped c m)).
  { intros T c m [Dm Lm]. split; [by apply disciplined_scoped|].
    intros stk. rewrite events_scoped by done. simpl. split; [done|].
    eapply lifo_app; [apply Lm|]. simpl. split; [by exists c | done]. }
  assert (Hexpr : ∀ e, orderly unit (observe (EvExpr e)))
    by (split; [apply disciplined_observe_expr | done]).
  assert (Hstmt : ∀ s, orderly unit (observe (EvStmt s)))
    by (split; [apply disciplined_observe_stmt | done]).
  repeat split; intros;
    first [ by apply (every_visitor_expr orderly)
          | by apply (every_visitor_stmt orderly)
          | by apply (every_mutator_expr orderly)
          | by apply (every_mutator_stmt orderly) ].
Qed.

(** X6.  Facts of enclosing scopes stay where they are: every stack seen
    during a walk of either walker, at a visit, a push or a pop, begins
    with the stack the walk was entered with. *)
Theorem enclosing_facts_persist (s : Stmt) (e : PrimExpr)
        (stk : list Constr) :
  Forall (λ ev, stk `prefix_of` ev_stack ev)
         (events (ConstrVisitor.VisitStmt s) stk) ∧
  Forall (λ ev, stk `prefix_of` ev_stack ev)
         (events (ConstrVisitor.VisitExpr e) stk) ∧
  Forall (λ ev, stk `prefix_of` ev_stack ev)
         (events (ConstrMutator.VisitStmt s) stk) ∧
  Forall (λ ev, stk `prefix_of` ev_stack ev)
         (events (ConstrMutator.VisitExpr e) stk).
Proof.
  repeat split; apply disciplined_above;
    first [ apply visitor_VisitStmt_disciplined
          | apply visitor_VisitExpr_disciplined
          | apply mutator_VisitStmt_disciplined
          | apply mutator_VisitExpr_disciplined ].
Qed.

(** X7.  The stack of a walker is used as a stack and as nothing else: in
    the log of any walk every push shows the stack before it with the
    pushed fact added at the end, every pop shows the stack before it
    without its last fact, every visit shows the stack unchanged, and the
    log ends with the stack the walk was entered with. *)
Theorem walk_is_lifo (s : Stmt) (e : PrimExpr) (stk : list Constr) :
  lifo stk (events (ConstrVisitor.VisitStmt s) stk) stk ∧
  lifo stk (events (ConstrVisitor.VisitExpr e) stk) stk ∧
  lifo stk (events (ConstrMutator.VisitStmt s) stk) stk ∧
  lifo stk (events (ConstrMutator.VisitExpr e) stk) stk.
Proof.
  destruct orderly_visits as (H1 & H2 & H3 & H4).
  repeat split; [apply H2 | apply H1 | apply H4 | apply H3].
Qed.

(* ===================================================================== *)
(** ** Siblings                                                           *)
(* ===================================================================== *)

Lemma returns_done {T} (m : M T) stk :
  returns m stk = true → ∃ a, result m stk = Done a.
Proof. unfold returns. destruct (result m stk) as [a|]; [by exists a | done]. Qed.

Lemma VisitArray_events {T} (visit : T → M unit) (l : list T) stk :
  (∀ x, disciplined (visit x)) →
  forallb (λ x, returns (visit x) stk) l = true →
  events (ConstrVisitor.VisitArray visit l) stk
  = concat (map (λ x, events (visit x) stk) l) ∧
  result (ConstrVisitor.VisitArray visit l) stk = Done tt.
Proof.
  intros Hd. induction l as [|x l IH]; simpl; [done|].
  intros [Hx Hl]%andb_prop. destruct (IH Hl) as [IHe IHr].
  assert (Hgo : disciplined (ConstrVisitor.VisitArray visit l))
    by apply visitor_VisitArray_disciplined, Forall_true, Hd.
  apply returns_done in Hx as [[] Hx].
  rewrite events_bind, result_bind; [|discipline..]. rewrite Hx.
  split; [by f_equal | done].
Qed.

Lemma MutateArray_events {T} (visit : T → M (ConstrMutator.Rewritten T))
      (l : list T) stk :
  (∀ x, disciplined (visit x)) →
  forallb (λ x, returns (visit x) stk) l = true →
  events (ConstrMutator.MutateArray visit l) stk
  = concat (map (λ x, events (visit x) stk) l) ∧
  returns (ConstrMutator.MutateArray visit l) stk = true.
Proof.
  intros Hd. induction l as [|x l IH]; simpl; [done|].
  intros [Hx Hl]%andb_prop. destruct (IH Hl) as [IHe IHr].
  assert (Hgo : disciplined (ConstrMutator.MutateArray visit l))
    by apply mutator_MutateArray_disciplined, Forall_true, Hd.
  apply returns_done in Hx as [r Hx]. apply returns_done in IHr as [rs IHr].
  unfold returns.
  rewrite events_bind, result_bind; [|discipline..]. rewrite Hx.
  rewrite events_bind, result_bind; [|discipline..]. rewrite IHr.
  rewrite silent_if, app_nil_r. split; [by f_equal | by destruct (_ && _)].
Qed.





(* ===================================================================== *)
(** ** If_then_else calls                                                 *)
(* ===================================================================== *)

(** X10.  An if_then_else call with fewer than three arguments makes
    both walkers throw on the indexed access; the call itself has been
    logged as visited, none of its arguments is visited and nothing is
    pushed. *)
Theorem short_if_then_else_throws (args : list PrimExpr)
        (stk : list Constr) :
  length args < 3 →
  result (ConstrVisitor.VisitExpr (Call op_if_then_else args)) stk = Throw ∧
  events (ConstrVisitor.VisitExpr (Call op_if_then_else args)) stk
  = [EvExpr (Call op_if_then_else args) stk] ∧
  result (ConstrMutator.VisitExpr (Call op_if_then_else args)) stk = Throw ∧
  events (ConstrMutator.VisitExpr (Call op_if_then_else args)) stk
  = [EvExpr (Call op_if_then_else args) stk].
Proof.
  destruct args as [|c [|t [|f rest]]]; simpl; intros Hlen;
    [done | done | done | lia].
Qed.

Lemma short_if_then_else_throws_witness :
  result (ConstrVisitor.VisitExpr
            (Call op_if_then_else [Examples.x_positive; EVar Examples.x])) []
  = Throw.
Proof.
  apply (short_if_then_else_throws [Examples.x_positive; EVar Examples.x] []).
  simpl. lia.
Defined.

(** X11.  Of an if_then_else call only the first three arguments count.
    Both walkers log the call and then do what they do for the [Select]
    node over these three; further arguments are never visited, and the
    rewriting walker returns what it returns for that [Select] node, so
    never a call. *)
Theorem if_then_else_as_select (c t f : PrimExpr) (rest : list PrimExpr)
        (stk : list Constr) :
  let call := Call op_if_then_else (c :: t :: f :: rest) in
  events (ConstrVisitor.VisitExpr call) stk
  = EvExpr call stk ::
    events (ConstrVisitor.VisitIfThenElseExpr ConstrVisitor.VisitExpr c t f)
           stk ∧
  events (ConstrVisitor.VisitExpr (Select c t f)) stk
  = EvExpr (Select c t f) stk ::
    events (ConstrVisitor.VisitIfThenElseExpr ConstrVisitor.VisitExpr c t f)
           stk ∧
  events (ConstrMutator.VisitExpr call) stk
  = EvExpr call stk ::
    events (ConstrMutator.VisitIfThenElseExpr ConstrMutator.VisitExpr c t f)
           stk ∧
  events (ConstrMutator.VisitExpr (Select c t f)) stk
  = EvExpr (Select c t f) stk ::
    events (ConstrMutator.VisitIfThenElseExpr ConstrMutator.VisitExpr c t f)
           stk ∧
  result (ConstrMutator.VisitExpr call) stk
  = result (ConstrMutator.VisitExpr (Select c t f)) stk ∧
  result (ConstrVisitor.VisitExpr call) stk
  = result (ConstrVisitor.VisitExpr (Select c t f)) stk.
Proof.
  pose proof visitor_VisitExpr_disciplined as HVE.
  pose proof mutator_VisitExpr_disciplined as HME.
  assert (Dv : disciplined (ConstrVisitor.VisitIfThenElseExpr
                              ConstrVisitor.VisitExpr c t f))
    by (unfold ConstrVisitor.VisitIfThenElseExpr; discipline).
  assert (Dm : disciplined (ConstrMutator.VisitIfThenElseExpr
                              ConstrMutator.VisitExpr c t f))
    by (unfold ConstrMutator.VisitIfThenElseExpr; discipline).
  simpl. rewrite !head_event by done.
  rewrite !result_bind; [|discipline..]. done.
Qed.

(* ===================================================================== *)
(** ** Well-formed trees are walked to the end                            *)
(* ===================================================================== *)

Section returning.
Context {T U : Type}.
Implicit Types (m : M T) (k : T → M U) (stk : list Constr).

Lemma returns_ret (a : T) stk : returns (ret a) stk = true.
Proof. done. Qed.

Lemma returns_bind m k stk :
  disciplined m → (∀ a, disciplined (k a)) →
  returns m stk = true → (∀ a, returns (k a) stk = true) →
  returns (bind m k) stk = true.
Proof.
  intros Hm Hk Hr Hrk. unfold returns in *. rewrite result_bind by done.
  destruct (result m stk) as [a|]; [apply Hrk | done].
Qed.

Lemma returns_scoped (c : Constr) m stk :
  disciplined m → returns m (stk ++ [c]) = true →
  returns (scoped c m) stk = true.
Proof. intros Hm. unfold returns. by rewrite result_scoped. Qed.

End returning.

Lemma returns_observe f stk : returns (observe f) stk = true.
Proof. done. Qed.

(** Splits a goal [returns m stk = true] along the binds of [m]. *)
Ltac returning :=
  repeat first
    [ assumption
    | progress intros
    | apply returns_ret
    | apply returns_observe
    | apply returns_scoped; [solve [discipline] |]
    | apply returns_bind; [solve [discipline] | solve [discipline] | |]
    | match goal with
      | H : ∀ stk, returns (_ ?x) stk = true |- returns (_ ?x) _ = true =>
          apply H
      | |- returns (if ?b then _ else _) _ = true => destruct b
      end ].

Lemma wf_args (P : PrimExpr → Prop) (f : PrimExpr → bool) args :
  Forall (λ e, f e = true → P e) args → forallb f args = true →
  Forall P args.
Proof.
  induction 1 as [|e args He _ IH]; simpl; [constructor|].
  intros [H1 H2]%andb_prop. constructor; [by apply He | by apply IH].
Qed.

Lemma Forall_returns {X T} (visit : X → M T) (l : list X) stk :
  Forall (λ x, ∀ stk', returns (visit x) stk' = true) l →
  forallb (λ x, returns (visit x) stk) l = true.
Proof. induction 1 as [|x l Hx _ IH]; simpl; [done|]. by rewrite Hx, IH. Qed.

Lemma visitor_expr_returns (e : PrimExpr) :
  well_formed e = true → ∀ stk, returns (ConstrVisitor.VisitExpr e) stk = true.
Proof.
  pose proof visitor_VisitExpr_disciplined as HVE.
  induction e as [v|z|s|op a b IHa IHb|a IHa|c t f IHc IHt IHf|op args IH]
    using PrimExpr_nested_ind; simpl; intros Hwf stk;
    unfold ConstrVisitor.Base_VisitExpr_Binary, ConstrVisitor.Base_VisitExpr_Not,
      ConstrVisitor.VisitIfThenElseExpr, ConstrVisitor.Base_VisitExpr_Call;
    try solve [returning].
  - apply andb_prop in Hwf as [Ha Hb].
    specialize (IHa Ha). specialize (IHb Hb). returning.
  - specialize (IHa Hwf). returning.
  - apply andb_prop in Hwf as [[Hc Ht]%andb_prop Hf].
    specialize (IHt Ht). specialize (IHf Hf). returning.
  - apply andb_prop in Hwf as [Hargs Hop].
    pose proof (wf_args _ _ _ IH Hargs) as Hall.
    destruct (String.eqb op op_if_then_else); simpl in Hop.
    + destruct Hall as [|c ? Hc [|t ? Ht [|f ? Hf _]]];
        simpl in Hop; try done. returning.
    + apply returns_bind; [discipline | | done |].
      * intros _. apply visitor_VisitArray_disciplined, Forall_true, HVE.
      * intros _. unfold returns.
        by rewrite (proj2 (VisitArray_events ConstrVisitor.VisitExpr args stk
                             HVE (Forall_returns _ _ _ Hall))).
Qed.

Lemma mutator_expr_returns (e : PrimExpr) :
  well_formed e = true → ∀ stk, returns (ConstrMutator.VisitExpr e) stk = true.
Proof.
  pose proof mutator_VisitExpr_disciplined as HME.
  induction e as [v|z|s|op a b IHa IHb|a IHa|c t f IHc IHt IHf|op args IH]
    using PrimExpr_nested_ind; simpl; intros Hwf stk;
    unfold ConstrMutator.Base_VisitExpr_Binary, ConstrMutator.Base_VisitExpr_Not,
      ConstrMutator.VisitIfThenElseExpr, ConstrMutator.Base_VisitExpr_Call;
    try solve [returning].
  - apply andb_prop in Hwf as [Ha Hb].
    specialize (IHa Ha). specialize (IHb Hb). returning.
  - specialize (IHa Hwf). returning.
  - apply andb_prop in Hwf as [[Hc Ht]%andb_prop Hf].
    specialize (IHc Hc). specialize (IHt Ht). specialize (IHf Hf). returning.
  - apply andb_prop in Hwf as [Hargs Hop].
    pose proof (wf_args _ _ _ IH Hargs) as Hall.
    destruct (String.eqb op op_if_then_else); simpl in Hop.
    + destruct Hall as [|c ? Hc [|t ? Ht [|f ? Hf _]]];
        simpl in Hop; try done. returning.
    + assert (Harr : disciplined (ConstrMutator.MutateArray
                                    ConstrMutator.VisitExpr args))
        by apply mutator_MutateArray_disciplined, Forall_true, HME.
      assert (Hret : returns (ConstrMutator.MutateArray
                                ConstrMutator.VisitExpr args) stk = true)
        by apply (MutateArray_events ConstrMutator.VisitExpr args stk HME
                    (Forall_returns _ _ _ Hall)).
      returning.
Qed.

Lemma wf_stmts (P : Stmt → Prop) (f : Stmt → bool) seq :
  Forall (λ s, f s = true → P s) seq → forallb f seq = true → Forall P seq.
Proof.
  induction 1 as [|s seq Hs _ IH]; simpl; [constructor|].
  intros [H1 H2]%andb_prop. constructor; [by apply Hs | by apply IH].
Qed.

Ltac split_wf H :=
  repeat match type of H with
         | _ && _ = true =>
             let H1 := fresh "Hwf" in
             apply andb_prop in H as [H H1]
         end.

Lemma visitor_stmt_returns (s : Stmt) :
  well_formed_stmt s = true →
  ∀ stk, returns (ConstrVisitor.VisitStmt s) stk = true.
Proof.
  pose proof visitor_VisitExpr_disciplined as HVE.
  pose proof visitor_VisitStmt_disciplined as HVS.
  pose proof visitor_expr_returns as HE.
  induction s as [v value body IHb|node key value body IHb|c m body IHb
                 |c t IHt|c t e IHt IHe|v mn ext k body tb ann IHb
                 |c body IHb|seq IH|value]
    using Stmt_nested_ind; simpl; intros Hwf stk;
    unfold ConstrVisitor.VisitStmt_LetStmt, ConstrVisitor.VisitStmt_AttrStmt,
      ConstrVisitor.VisitStmt_AssertStmt, ConstrVisitor.VisitStmt_IfThenElse,
      ConstrVisitor.VisitStmt_For, ConstrVisitor.VisitStmt_While,
      ConstrVisitor.Base_VisitStmt_LetStmt, ConstrVisitor.Base_VisitStmt_AttrStmt,
      ConstrVisitor.Base_VisitStmt_AssertStmt, ConstrVisitor.Base_VisitStmt_For,
      ConstrVisitor.Base_VisitStmt_SeqStmt, ConstrVisitor.Base_VisitStmt_Evaluate.
  - split_wf Hwf. specialize (IHb Hwf0).
    pose proof (HE value Hwf). returning.
  - split_wf Hwf. specialize (IHb Hwf0). pose proof (HE value Hwf1).
    apply returns_bind; [discipline | discipline | done | intros _].
    destruct key, node; try discriminate Hwf; simpl; returning.
  - split_wf Hwf. specialize (IHb Hwf0).
    pose proof (HE c Hwf). pose proof (HE m Hwf1). returning.
  - split_wf Hwf. specialize (IHt Hwf1). returning.
  - split_wf Hwf. specialize (IHt Hwf1). specialize (IHe Hwf0). returning.
  - split_wf Hwf. specialize (IHb Hwf0).
    pose proof (HE mn Hwf). pose proof (HE ext Hwf1).
    destruct k; returning.
  - split_wf Hwf. specialize (IHb Hwf0). returning.
  - pose proof (wf_stmts _ _ _ IH Hwf) as Hall.
    apply returns_bind; [discipline | | done |].
    + intros _. apply visitor_VisitArray_disciplined, Forall_true, HVS.
    + intros _. unfold returns.
      by rewrite (proj2 (VisitArray_events ConstrVisitor.VisitStmt seq stk
                           HVS (Forall_returns _ _ _ Hall))).
  - pose proof (HE value Hwf). returning.
Qed.

Lemma mutator_stmt_returns (s : Stmt) :
  well_formed_stmt s = true →
  ∀ stk, returns (ConstrMutator.VisitStmt s) stk = true.
Proof.
  pose proof mutator_VisitExpr_disciplined as HME.
  pose proof mutator_VisitStmt_disciplined as HMS.
  pose proof mutator_expr_returns as HE.
  induction s as [v value body IHb|node key value body IHb|c m body IHb
                 |c t IHt|c t e IHt IHe|v mn ext k body tb ann IHb
                 |c body IHb|seq IH|value]
    using Stmt_nested_ind; simpl; intros Hwf stk;
    unfold ConstrMutator.VisitStmt_LetStmt, ConstrMutator.VisitStmt_AttrStmt,
      ConstrMutator.VisitStmt_AssertStmt, ConstrMutator.VisitStmt_IfThenElse,
      ConstrMutator.VisitStmt_For, ConstrMutator.VisitStmt_While,
      ConstrMutator.Base_VisitStmt_SeqStmt, ConstrMutator.Base_VisitStmt_Evaluate.
  - split_wf Hwf. specialize (IHb Hwf0).
    pose proof (HE value Hwf). returning.
  - split_wf Hwf. specialize (IHb Hwf0). pose proof (HE value Hwf1).
    apply returns_bind; [discipline | discipline | done | intros _].
    apply returns_bind; [discipline | discipline | done | intros r_value].
    apply returns_bind; [discipline | discipline | done | intros r_body].
    apply returns_bind; [discipline | discipline | | returning].
    destruct key, node; try discriminate Hwf; simpl; returning.
  - split_wf Hwf. specialize (IHb Hwf0).
    pose proof (HE c Hwf). pose proof (HE m Hwf1). returning.
  - split_wf Hwf. specialize (IHt Hwf1). pose proof (HE c Hwf). returning.
  - split_wf Hwf. specialize (IHt Hwf1). specialize (IHe Hwf0).
    pose proof (HE c Hwf). returning.
  - split_wf Hwf. specialize (IHb Hwf0).
    pose proof (HE mn Hwf). pose proof (HE ext Hwf1).
    destruct k; returning.
  - split_wf Hwf. specialize (IHb Hwf0). pose proof (HE c Hwf). returning.
  - pose proof (wf_stmts _ _ _ IH Hwf) as Hall.
    assert (Harr : disciplined (ConstrMutator.MutateArray
                                  ConstrMutator.VisitStmt seq))
      by apply mutator_MutateArray_disciplined, Forall_true, HMS.
    assert (Hret : returns (ConstrMutator.MutateArray
                              ConstrMutator.VisitStmt seq) stk = true)
      by apply (MutateArray_events ConstrMutator.VisitStmt seq stk HMS
                  (Forall_returns _ _ _ Hall)).
    returning.
  - pose proof (HE value Hwf). returning.
Qed.

(** X16.  A walk only throws on a malformed tree.  When every
    if_then_else call of an expression has its three arguments, both
    walkers return from it; when, in addition, every attribute of a
    statement carries a payload of the type its key is downcast to, both
    walkers return from the statement, from whatever stack they are
    entered with. *)
Theorem well_formed_walks_return (e : PrimExpr) (s : Stmt)
        (stk : list Constr) :
  well_formed e = true →
  well_formed_stmt s = true →
  returns (ConstrVisitor.VisitExpr e) stk = true ∧
  returns (ConstrVisitor.VisitStmt s) stk = true ∧
  returns (ConstrMutator.VisitExpr e) stk = true ∧
  returns (ConstrMutator.VisitStmt s) stk = true.
Proof.
  intros He Hs. repeat split;
    [ by apply visitor_expr_returns | by apply visitor_stmt_returns
    | by apply mutator_expr_returns | by apply mutator_stmt_returns ].
Qed.

Lemma well_formed_walks_return_witness :
  returns (ConstrVisitor.VisitExpr Examples.abs_call) [] = true ∧
  returns (ConstrVisitor.VisitStmt Examples.launch) [] = true ∧
  returns (ConstrMutator.VisitExpr Examples.abs_call) [] = true ∧
  returns (ConstrMutator.VisitStmt Examples.launch) [] = true.
Proof.
  exact (well_formed_walks_return Examples.abs_call Examples.launch []
           eq_refl eq_refl).
Defined.

(* ===================================================================== *)
(** ** What the rewriting walker returns                                  *)
(* ===================================================================== *)

Lemma result_ret_inv {T} (a r : T) stk : result (ret a) stk = Done r → r = a.
Proof. by intros [=]. Qed.

Lemma result_if_inv {T} (b : bool) (x y r : T) stk :
  result (if b then ret x else ret y) stk = Done r → r = if b then x else y.
Proof. destruct b; by intros [=]. Qed.

(** Takes a hypothesis [result m stk = Done r] apart along the binds and
    guards of [m]. *)
Ltac invert_result H :=
  repeat (cbv beta zeta in H;
          match type of H with
          | result (scoped _ _) _ = Done _ =>
              rewrite result_scoped in H by discipline
          | result (if _ then ret _ else ret _) _ = Done _ =>
              apply result_if_inv in H
          | result (ret _) _ = Done _ => apply result_ret_inv in H
          | result (bind _ _) _ = Done _ =>
              let a := fresh "r" in
              let Ha := fresh "Hr" in
              apply result_done_bind in H as (a & Ha & H);
              [|solve [discipline]..];
              repeat (rewrite result_scoped in Ha by discipline)
          end).

Ltac by_cases_on_results :=
  repeat match goal with
         | r : ConstrMutator.Rewritten _ |- _ => destruct r
         | r : unit |- _ => destruct r
         end;
  simpl in *; subst; simpl in *; congruence.

Lemma MutateArray_normal {X} (visit : X → M (ConstrMutator.Rewritten X))
      (norm : X → X) (l : list X) :
  (∀ x, disciplined (visit x)) →
  Forall (λ x, ∀ stk r, result (visit x) stk = Done r →
                        ConstrMutator.deref r x = norm x) l →
  ∀ stk r, result (ConstrMutator.MutateArray visit l) stk = Done r →
           ConstrMutator.deref r l = map norm l.
Proof.
  intros Hd. induction 1 as [|x l Hx Hl IH]; simpl; intros stk r Hres.
  - by apply result_ret_inv in Hres as ->.
  - assert (Hgo : disciplined (ConstrMutator.MutateArray visit l))
      by apply mutator_MutateArray_disciplined, Forall_true, Hd.
    invert_result Hres.
    apply Hx in Hr. apply IH in Hr0. by_cases_on_results.
Qed.

Lemma mutator_expr_normal (e : PrimExpr) :
  ∀ stk r, result (ConstrMutator.VisitExpr e) stk = Done r →
           ConstrMutator.deref r e = normalize e.
Proof.
  pose proof mutator_VisitExpr_disciplined as HME.
  induction e as [v|z|s|op a b IHa IHb|a IHa|c t f IHc IHt IHf|op args IH]
    using PrimExpr_nested_ind; simpl; intros stk r Hres;
    unfold ConstrMutator.Base_VisitExpr_Binary, ConstrMutator.Base_VisitExpr_Not,
      ConstrMutator.VisitIfThenElseExpr, ConstrMutator.Base_VisitExpr_Call
      in Hres.
  - invert_result Hres. by subst.
  - invert_result Hres. by subst.
  - invert_result Hres. by subst.
  - invert_result Hres. apply IHa in Hr0. apply IHb in Hr1.
    by_cases_on_results.
  - invert_result Hres. apply IHa in Hr0. by_cases_on_results.
  - invert_result Hres. apply IHc in Hr0. apply IHt in Hr1. apply IHf in Hr2.
    by_cases_on_results.
  - destruct (String.eqb op op_if_then_else).
    + destruct IH as [|c ? IHc [|t ? IHt [|f ? IHf _]]];
        try (invert_result Hres; discriminate Hres).
      invert_result Hres.
      apply IHc in Hr0. apply IHt in Hr1. apply IHf in Hr2.
      by_cases_on_results.
    + assert (Harr : disciplined (ConstrMutator.MutateArray
                                    ConstrMutator.VisitExpr args))
        by apply mutator_MutateArray_disciplined, Forall_true, HME.
      invert_result Hres.
      apply (MutateArray_normal _ normalize _ HME IH) in Hr0.
      by_cases_on_results.
Qed.

Lemma mutator_stmt_normal (s : Stmt) :
  ∀ stk r, result (ConstrMutator.VisitStmt s) stk = Done r →
           ConstrMutator.deref r s = normalize_stmt s.
Proof.
  pose proof mutator_VisitExpr_disciplined as HME.
  pose proof mutator_VisitStmt_disciplined as HMS.
  pose proof mutator_expr_normal as HE.
  induction s as [v value body IHb|node key value body IHb|c m body IHb
                 |c t IHt|c t e IHt IHe|v mn ext k body tb ann IHb
                 |c body IHb|seq IH|value]
    using Stmt_nested_ind; simpl; intros stk r Hres;
    unfold ConstrMutator.VisitStmt_LetStmt, ConstrMutator.VisitStmt_AttrStmt,
      ConstrMutator.VisitStmt_AssertStmt, ConstrMutator.VisitStmt_IfThenElse,
      ConstrMutator.VisitStmt_For, ConstrMutator.VisitStmt_While,
      ConstrMutator.Base_VisitStmt_SeqStmt, ConstrMutator.Base_VisitStmt_Evaluate
      in Hres.
  - invert_result Hres. apply HE in Hr0. apply IHb in Hr1.
    by_cases_on_results.
  - invert_result Hres. apply HE in Hr0. apply IHb in Hr1.
    by_cases_on_results.
  - invert_result Hres. apply HE in Hr0. apply HE in Hr1. apply IHb in Hr2.
    by_cases_on_results.
  - invert_result Hres. apply HE in Hr0. apply IHt in Hr1.
    by_cases_on_results.
  - invert_result Hres. apply HE in Hr0. apply IHt in Hr1. apply IHe in Hr2.
    by_cases_on_results.
  - destruct k; invert_result Hres;
      apply HE in Hr0; apply HE in Hr1; apply IHb in Hr2;
      by_cases_on_results.
  - invert_result Hres. apply HE in Hr0. apply IHb in Hr1.
    by_cases_on_results.
  - assert (Harr : disciplined (ConstrMutator.MutateArray
                                  ConstrMutator.VisitStmt seq))
      by apply mutator_MutateArray_disciplined, Forall_true, HMS.
    invert_result Hres.
    apply (MutateArray_normal _ normalize_stmt _ HMS IH) in Hr0.
    by_cases_on_results.
  - invert_result Hres. apply HE in Hr0. by_cases_on_results.
Qed.

(** X17.  What the rewriting walker returns is the tree it was given
    with every if_then_else call replaced by the [Select] node over the
    first three arguments of the call, and nothing else changed: loop
    kind, thread binding, annotations and attribute payloads are the
    ones of the input.  This holds for expressions and for statements,
    whenever the walk returns. *)
Theorem rewrite_is_normalize (e : PrimExpr) (s : Stmt) (stk : list Constr)
        (r_e : ConstrMutator.Rewritten PrimExpr)
        (r_s : ConstrMutator.Rewritten Stmt) :
  result (ConstrMutator.VisitExpr e) stk = Done r_e →
  result (ConstrMutator.VisitStmt s) stk = Done r_s →
  ConstrMutator.deref r_e e = normalize e ∧
  ConstrMutator.deref r_s s = normalize_stmt s.
Proof.
  intros He Hs. split;
    [by eapply mutator_expr_normal | by eapply mutator_stmt_normal].
Qed.

Lemma rewrite_is_normalize_witness :
  ConstrMutator.deref (ConstrMutator.NewObject Examples.abs_select)
                      Examples.abs_call
  = normalize Examples.abs_call ∧
  ConstrMutator.deref ConstrMutator.SameObject Examples.loop
  = normalize_stmt Examples.loop.
Proof.
  exact (rewrite_is_normalize Examples.abs_call Examples.loop []
           (ConstrMutator.NewObject Examples.abs_select)
           ConstrMutator.SameObject eq_refl eq_refl).
Defined.

(* ===================================================================== *)
(** ** When the rewriting walker returns the object it was given          *)
(* ===================================================================== *)

Lemma MutateArray_same_as {X} (visit : X → M (ConstrMutator.Rewritten X))
      (has : X → bool) (l : list X) :
  (∀ x, disciplined (visit x)) →
  Forall (λ x, ∀ stk r, result (visit x) stk = Done r →
                        ConstrMutator.same_as r = negb (has x)) l →
  ∀ stk r, result (ConstrMutator.MutateArray visit l) stk = Done r →
           ConstrMutator.same_as r = negb (existsb has l).
Proof.
  intros Hd. induction 1 as [|x l Hx Hl IH]; simpl; intros stk r Hres.
  - by apply result_ret_inv in Hres as ->.
  - assert (Hgo : disciplined (ConstrMutator.MutateArray visit l))
      by apply mutator_MutateArray_disciplined, Forall_true, Hd.
    invert_result Hres. apply Hx in Hr. apply IH in Hr0.
    rewrite negb_orb, <- Hr, <- Hr0. subst r. by destruct (_ && _).
Qed.

Ltac same_as_cases :=
  subst;
  repeat match goal with
         | H : ConstrMutator.same_as ?r = negb ?b |- _ =>
             destruct r, b; simpl in H; try discriminate H; clear H
         end;
  reflexivity.

Lemma mutator_expr_same_as (e : PrimExpr) :
  ∀ stk r, result (ConstrMutator.VisitExpr e) stk = Done r →
           ConstrMutator.same_as r = negb (ConstrMutator.has_conditional e).
Proof.
  pose proof mutator_VisitExpr_disciplined as HME.
  induction e as [v|z|s|op a b IHa IHb|a IHa|c t f IHc IHt IHf|op args IH]
    using PrimExpr_nested_ind; simpl; intros stk r Hres;
    unfold ConstrMutator.Base_VisitExpr_Binary, ConstrMutator.Base_VisitExpr_Not,
      ConstrMutator.VisitIfThenElseExpr, ConstrMutator.Base_VisitExpr_Call
      in Hres.
  - invert_result Hres. by subst.
  - invert_result Hres. by subst.
  - invert_result Hres. by subst.
  - invert_result Hres. apply IHa in Hr0. apply IHb in Hr1. same_as_cases.
  - invert_result Hres. apply IHa in Hr0. same_as_cases.
  - invert_result Hres. subst. by destruct (_ && _).
  - destruct (String.eqb op op_if_then_else); simpl.
    + destruct args as [|c [|t [|f rest]]];
        try (invert_result Hres; discriminate Hres).
      invert_result Hres. subst. by destruct (_ && _).
    + assert (Harr : disciplined (ConstrMutator.MutateArray
                                    ConstrMutator.VisitExpr args))
        by apply mutator_MutateArray_disciplined, Forall_true, HME.
      invert_result Hres.
      apply (MutateArray_same_as _ ConstrMutator.has_conditional _ HME IH)
        in Hr0.
      rewrite <- Hr0. subst. by destruct (ConstrMutator.same_as r1).
Qed.

Lemma mutator_stmt_same_as (s : Stmt) :
  ∀ stk r, result (ConstrMutator.VisitStmt s) stk = Done r →
           ConstrMutator.same_as r = negb (has_conditional_stmt s).
Proof.
  pose proof mutator_VisitExpr_disciplined as HME.
  pose proof mutator_VisitStmt_disciplined as HMS.
  pose proof mutator_expr_same_as as HE.
  induction s as [v value body IHb|node key value body IHb|c m body IHb
                 |c t IHt|c t e IHt IHe|v mn ext k body tb ann IHb
                 |c body IHb|seq IH|value]
    using Stmt_nested_ind; simpl; intros stk r Hres;
    unfold ConstrMutator.VisitStmt_LetStmt, ConstrMutator.VisitStmt_AttrStmt,
      ConstrMutator.VisitStmt_AssertStmt, ConstrMutator.VisitStmt_IfThenElse,
      ConstrMutator.VisitStmt_For, ConstrMutator.VisitStmt_While,
      ConstrMutator.Base_VisitStmt_SeqStmt, ConstrMutator.Base_VisitStmt_Evaluate
      in Hres.
  - invert_result Hres. apply HE in Hr0. apply IHb in Hr1. same_as_cases.
  - invert_result Hres. apply HE in Hr0. apply IHb in Hr1. same_as_cases.
  - invert_result Hres. apply HE in Hr0. apply HE in Hr1. apply IHb in Hr2.
    same_as_cases.
  - invert_result Hres. apply HE in Hr0. apply IHt in Hr1.
    rewrite orb_false_r. same_as_cases.
  - invert_result Hres. apply HE in Hr0. apply IHt in Hr1. apply IHe in Hr2.
    same_as_cases.
  - destruct k; invert_result Hres;
      apply HE in Hr0; apply HE in Hr1; apply IHb in Hr2; same_as_cases.
  - invert_result Hres. apply HE in Hr0. apply IHb in Hr1. same_as_cases.
  - assert (Harr : disciplined (ConstrMutator.MutateArray
                                  ConstrMutator.VisitStmt seq))
      by apply mutator_MutateArray_disciplined, Forall_true, HMS.
    invert_result Hres.
    apply (MutateArray_same_as _ has_conditional_stmt _ HMS IH) in Hr0.
    rewrite <- Hr0. subst. by destruct (ConstrMutator.same_as r1).
  - invert_result Hres. apply HE in Hr0. same_as_cases.
Qed.

(** X18.  The rewriting walker returns the very object it was given
    exactly when no conditional value (no [Select] node, no if_then_else
    call) occurs in the tree below it: one conditional value anywhere
    makes it rebuild every node on the path from that value up to the
    root, and without one nothing is rebuilt.  This holds for expressions
    and for statements, whenever the walk returns. *)
Theorem same_object_iff_no_conditional (e : PrimExpr) (s : Stmt)
        (stk : list Constr) (r_e : ConstrMutator.Rewritten PrimExpr)
        (r_s : ConstrMutator.Rewritten Stmt) :
  result (ConstrMutator.VisitExpr e) stk = Done r_e →
  result (ConstrMutator.VisitStmt s) stk = Done r_s →
  ConstrMutator.same_as r_e = negb (ConstrMutator.has_conditional e) ∧
  ConstrMutator.same_as r_s = negb (has_conditional_stmt s).
Proof.
  intros He Hs. split;
    [by eapply mutator_expr_same_as | by eapply mutator_stmt_same_as].
Qed.

Lemma same_object_iff_no_conditional_witness :
  ConstrMutator.same_as (ConstrMutator.NewObject
                           (Binary Add (EVar Examples.x) Examples.abs_select))
  = negb (ConstrMutator.has_conditional
            (Binary Add (EVar Examples.x) Examples.abs_select)) ∧
  ConstrMutator.same_as (@ConstrMutator.SameObject Stmt)
  = negb (has_conditional_stmt Examples.checked).
Proof.
  exact (same_object_iff_no_conditional
           (Binary Add (EVar Examples.x) Examples.abs_select)
           Examples.checked []
           (ConstrMutator.NewObject
              (Binary Add (EVar Examples.x) Examples.abs_select))
           ConstrMutator.SameObject eq_refl eq_refl).
Defined.

(* ===================================================================== *)
(** ** Which expressions are visited                                      *)
(* ===================================================================== *)

Lemma visited_exprs_app L1 L2 :
  visited_exprs (L1 ++ L2) = visited_exprs L1 ++ visited_exprs L2.
Proof. apply omap_app. Qed.

Lemma visited_exprs_concat {X} (ev nd : X → list event) (f : X → list PrimExpr)
      (l : list X) :
  Forall (λ x, visited_exprs (ev x) = f x) l →
  visited_exprs (concat (map ev l)) = concat (map f l).
Proof.
  induction 1 as [|x l Hx _ IH]; simpl; [done|].
  by rewrite visited_exprs_app, Hx, IH.
Qed.

Lemma exact_arity_well_formed (e : PrimExpr) :
  exact_arity e = true → well_formed e = true.
Proof.
  induction e as [v|z|s|op a b IHa IHb|a IHa|c t f IHc IHt IHf|op args IH]
    using PrimExpr_nested_ind; simpl; intros Hex; try done.
  - apply andb_prop in Hex as [Ha Hb]. by rewrite IHa, IHb.
  - by apply IHa.
  - apply andb_prop in Hex as [[Hc Ht]%andb_prop Hf].
    by rewrite IHc, IHt, IHf.
  - apply andb_prop in Hex as [Hargs Hop]. apply andb_true_intro. split.
    + clear Hop. induction IH as [|x args Hx _ IHargs]; simpl in *; [done|].
      apply andb_prop in Hargs as [H1 H2]. by rewrite Hx, IHargs.
    + destruct (String.eqb op op_if_then_else); simpl in *; [|done].
      apply Nat.eqb_eq in Hop. rewrite Hop. done.
Qed.

Lemma no_conditional_well_formed (e : PrimExpr) :
  ConstrMutator.has_conditional e = false → well_formed e = true.
Proof.
  induction e as [v|z|s|op a b IHa IHb|a IHa|c t f IHc IHt IHf|op args IH]
    using PrimExpr_nested_ind; simpl; intros Hno; try done.
  - apply orb_false_iff in Hno as [Ha Hb]. by rewrite IHa, IHb.
  - by apply IHa.
  - apply orb_false_iff in Hno as [Hop Hargs]. rewrite Hop. simpl.
    rewrite andb_true_r.
    induction IH as [|x args Hx _ IHargs]; simpl in *; [done|].
    apply orb_false_iff in Hargs as [H1 H2]. by rewrite Hx, IHargs.
Qed.

(** Rewrites the events of a bind whose first part is known to return. *)
Ltac events_step H :=
  rewrite events_bind; [|solve [discipline]..];
  let r := fresh "r" in
  let Hr := fresh "Hr" in
  destruct (returns_done _ _ H) as [r Hr]; rewrite Hr; clear Hr.

(** X19.  In an expression whose if_then_else calls have exactly three
    arguments the rewriting walker visits every node, once, parents
    before children and children in field order, whatever stack it
    is entered with. *)
Theorem mutator_visits_every_node (e : PrimExpr) :
  exact_arity e = true →
  ∀ stk, visited_exprs (events (ConstrMutator.VisitExpr e) stk) = nodes e.
Proof.
  pose proof mutator_VisitExpr_disciplined as HME.
  pose proof (λ e H, mutator_expr_returns e (exact_arity_well_formed e H)) as HR.
  induction e as [v|z|s|op a b IHa IHb|a IHa|c t f IHc IHt IHf|op args IH]
    using PrimExpr_nested_ind; intros Hex stk; try done.
  - simpl in Hex. apply andb_prop in Hex as [Ha Hb].
    simpl. unfold ConstrMutator.Base_VisitExpr_Binary.
    rewrite head_event by discipline. simpl. f_equal.
    events_step (HR a Ha stk). events_step (HR b Hb stk).
    rewrite silent_if, app_nil_r, visited_exprs_app.
    by rewrite IHa, IHb.
  - simpl in Hex. simpl. unfold ConstrMutator.Base_VisitExpr_Not.
    rewrite head_event by discipline. simpl. f_equal.
    events_step (HR a Hex stk). rewrite silent_if, app_nil_r. by apply IHa.
  - simpl in Hex. apply andb_prop in Hex as [[Hc Ht]%andb_prop Hf].
    simpl. unfold ConstrMutator.VisitIfThenElseExpr.
    rewrite head_event by discipline. simpl. f_equal.
    events_step (HR c Hc stk).
    rewrite events_bind; [|discipline..].
    rewrite events_scoped, result_scoped by discipline.
    destruct (returns_done _ _ (HR t Ht (stk ++ [Constr_expr
               (ConstrMutator.deref r c) false]))) as [rt ->].
    rewrite events_scoped_silent; [|discipline..|intros ?; apply silent_if].
    rewrite !visited_exprs_app. simpl. rewrite !visited_exprs_app. simpl.
    rewrite (IHc Hc), (IHt Ht), (IHf Hf). by rewrite !app_nil_r.
  - simpl in Hex. apply andb_prop in Hex as [Hargs Hop].
    assert (Hall : Forall (λ x, exact_arity x = true) args).
    { clear -Hargs. induction args as [|x args IHa]; simpl in *; [done|].
      apply andb_prop in Hargs as [H1 H2]. constructor; [done | by apply IHa]. }
    simpl. destruct (String.eqb op op_if_then_else) eqn:Eop; simpl in Hop.
    + destruct args as [|c [|t [|f [|? ?]]]]; simpl in Hop; try done.
      inversion IH as [|? ? IHc IH1]; subst.
      inversion IH1 as [|? ? IHt IH2]; subst.
      inversion IH2 as [|? ? IHf _]; subst.
      inversion Hall as [|? ? Hc Hall1]; subst.
      inversion Hall1 as [|? ? Ht Hall2]; subst.
      inversion Hall2 as [|? ? Hf _]; subst.
      unfold ConstrMutator.VisitIfThenElseExpr.
      rewrite head_event by discipline. simpl. f_equal.
      events_step (HR c Hc stk).
      rewrite events_bind; [|discipline..].
      rewrite events_scoped, result_scoped by discipline.
      destruct (returns_done _ _ (HR t Ht (stk ++ [Constr_expr
                 (ConstrMutator.deref r c) false]))) as [rt ->].
      rewrite events_scoped_silent; [|discipline..|intros ?; apply silent_if].
      rewrite !visited_exprs_app. simpl. rewrite !visited_exprs_app. simpl.
      rewrite (IHc Hc), (IHt Ht), (IHf Hf). by rewrite !app_nil_r.
    + assert (Harr : disciplined (ConstrMutator.MutateArray
                                    ConstrMutator.VisitExpr args))
        by apply mutator_MutateArray_disciplined, Forall_true, HME.
      assert (Hret : forallb (λ x, returns (ConstrMutator.VisitExpr x) stk)
                             args = true).
      { apply Forall_returns. eapply Forall_impl; [exact Hall|].
        intros x Hx stk'. by apply HR. }
      destruct (MutateArray_events ConstrMutator.VisitExpr args stk HME Hret)
        as [Ev Hr].
      unfold ConstrMutator.Base_VisitExpr_Call.
      rewrite head_event by discipline. simpl. f_equal.
      events_step Hr. rewrite silent_if, app_nil_r, Ev.
      apply (visited_exprs_concat _ (λ _, [])).
      clear -IH Hall. induction IH as [|x args Hx _ IHargs]; [constructor|].
      inversion Hall; subst. constructor; [by apply Hx | by apply IHargs].
Qed.

(** X20.  In an expression without a conditional value the read-only
    walker visits every node, once, parents before children and children
    in field order, whatever stack it is entered with. *)
Theorem visitor_visits_every_node (e : PrimExpr) :
  ConstrMutator.has_conditional e = false →
  ∀ stk, visited_exprs (events (ConstrVisitor.VisitExpr e) stk) = nodes e.
Proof.
  pose proof visitor_VisitExpr_disciplined as HVE.
  pose proof (λ e H, visitor_expr_returns e (no_conditional_well_formed e H))
    as HR.
  induction e as [v|z|s|op a b IHa IHb|a IHa|c t f IHc IHt IHf|op args IH]
    using PrimExpr_nested_ind; intros Hno stk; try done.
  - simpl in Hno. apply orb_false_iff in Hno as [Ha Hb].
    simpl. unfold ConstrVisitor.Base_VisitExpr_Binary.
    rewrite head_event by discipline. simpl. f_equal.
    events_step (HR a Ha stk). rewrite visited_exprs_app.
    by rewrite (IHa Ha), (IHb Hb).
  - simpl in Hno. simpl. unfold ConstrVisitor.Base_VisitExpr_Not.
    rewrite head_event by discipline. simpl. f_equal. by apply IHa.
  - simpl in Hno. apply orb_false_iff in Hno as [Hop Hargs].
    assert (Hall : Forall (λ x, ConstrMutator.has_conditional x = false) args).
    { clear -Hargs. induction args as [|x args IHa]; simpl in *; [done|].
      apply orb_false_iff in Hargs as [H1 H2].
      constructor; [done | by apply IHa]. }
    assert (Harr : disciplined (ConstrVisitor.VisitArray
                                  ConstrVisitor.VisitExpr args))
      by apply visitor_VisitArray_disciplined, Forall_true, HVE.
    assert (Hret : forallb (λ x, returns (ConstrVisitor.VisitExpr x) stk)
                           args = true).
    { apply Forall_returns. eapply Forall_impl; [exact Hall|].
      intros x Hx stk'. by apply HR. }
    destruct (VisitArray_events ConstrVisitor.VisitExpr args stk HVE Hret)
      as [Ev _].
    simpl. rewrite Hop. unfold ConstrVisitor.Base_VisitExpr_Call.
    rewrite head_event by discipline. simpl. f_equal. rewrite Ev.
    apply (visited_exprs_concat _ (λ _, [])).
    clear -IH Hall. induction IH as [|x args Hx _ IHargs]; [constructor|].
    inversion Hall; subst. constructor; [by apply Hx | by apply IHargs].
Qed.

Lemma mutator_visits_every_node_witness :
  visited_exprs (events (ConstrMutator.VisitExpr Examples.abs_call) [])
  = nodes Examples.abs_call.
Proof. exact (mutator_visits_every_node Examples.abs_call eq_refl []). Defined.

Lemma visitor_visits_every_node_witness :
  visited_exprs
    (events (ConstrVisitor.VisitExpr
               (Call "tir.max" [EVar Examples.x; Examples.x_positive])) [])
  = nodes (Call "tir.max" [EVar Examples.x; Examples.x_positive]).
Proof.
  exact (visitor_visits_every_node
           (Call "tir.max" [EVar Examples.x; Examples.x_positive])
           eq_refl []).
Defined.

(* ===================================================================== *)
(** ** The walk does not depend on the facts it is entered with           *)
(* ===================================================================== *)

Lemma shift_shift a b ev : shift a (shift b ev) = shift (a ++ b) ev.
Proof. destruct ev; simpl; by rewrite app_assoc. Qed.

Lemma framed_visits :
  (∀ e, framed _ (ConstrVisitor.VisitExpr e)) ∧
  (∀ s, framed _ (ConstrVisitor.VisitStmt s)) ∧
  (∀ e, framed _ (ConstrMutator.VisitExpr e)) ∧
  (∀ s, framed _ (ConstrMutator.VisitStmt s)).
Proof.
  assert (Hret : ∀ T (a : T), framed T (ret a))
    by (split; [apply disciplined_ret | done]).
  assert (Hthrow : ∀ T, framed T throw)
    by (split; [apply disciplined_throw | done]).
  assert (Hbind : ∀ T U (m : M T) (k : T → M U),
             framed T m → (∀ a, framed U (k a)) → framed U (bind m k)).
  { intros T U m k [Dm Fm] Hk.
    assert (Dk : ∀ a, disciplined (k a)) by (intros a; apply Hk).
    split; [by apply disciplined_bind|]. intros stk.
    rewrite !events_bind, !result_bind by done.
    destruct (Fm stk) as [-> ->]. rewrite map_app.
    destruct (result m []) as [a|]; [|done].
    by destruct (Hk a) as [_ Fk], (Fk stk) as [-> ->]. }
  assert (Hscoped : ∀ T (c : Constr) (m : M T),
             framed T m → framed T (scoped c m)).
  { intros T c m [Dm Fm]. split; [by apply disciplined_scoped|].
    intros stk. rewrite !events_scoped, !result_scoped by done.
    destruct (Fm (stk ++ [c])) as [-> ->]. destruct (Fm ([] ++ [c])) as [-> ->].
    split; [|done]. simpl. f_equal.
    rewrite map_app, map_map. simpl. rewrite app_nil_r. f_equal.
    apply map_ext. intros ev. by rewrite shift_shift. }
  assert (Hexpr : ∀ e, framed unit (observe (EvExpr e))).
  { split; [apply disciplined_observe_expr|]. intros stk.
    unfold events, result. simpl. by rewrite app_nil_r. }
  assert (Hstmt : ∀ s, framed unit (observe (EvStmt s))).
  { split; [apply disciplined_observe_stmt|]. intros stk.
    unfold events, result. simpl. by rewrite app_nil_r. }
  repeat split; intros;
    first [ by apply (every_visitor_expr framed)
          | by apply (every_visitor_stmt framed)
          | by apply (every_mutator_expr framed)
          | by apply (every_mutator_stmt framed) ].
Qed.

(** X21.  Neither walker consults the stack.  Entered with any stack, a
    walk returns or throws as it does from the empty stack, the rewriting
    walker returns the same result, and the log is the log of the walk
    from the empty stack with the entry stack put below every stack it
    shows: the same visits, pushes and pops in the same order. *)
Theorem walk_ignores_entry_stack (s : Stmt) (e : PrimExpr)
        (stk : list Constr) :
  (events (ConstrVisitor.VisitStmt s) stk
   = map (shift stk) (events (ConstrVisitor.VisitStmt s) []) ∧
   result (ConstrVisitor.VisitStmt s) stk
   = result (ConstrVisitor.VisitStmt s) []) ∧
  (events (ConstrVisitor.VisitExpr e) stk
   = map (shift stk) (events (ConstrVisitor.VisitExpr e) []) ∧
   result (ConstrVisitor.VisitExpr e) stk
   = result (ConstrVisitor.VisitExpr e) []) ∧
  (events (ConstrMutator.VisitStmt s) stk
   = map (shift stk) (events (ConstrMutator.VisitStmt s) []) ∧
   result (ConstrMutator.VisitStmt s) stk
   = result (ConstrMutator.VisitStmt s) []) ∧
  (events (ConstrMutator.VisitExpr e) stk
   = map (shift stk) (events (ConstrMutator.VisitExpr e) []) ∧
   result (ConstrMutator.VisitExpr e) stk
   = result (ConstrMutator.VisitExpr e) []).
Proof.
  destruct framed_visits as (H1 & H2 & H3 & H4).
  repeat split; first [apply H2 | apply H1 | apply H4 | apply H3].
Qed.

(* ===================================================================== *)
(** ** Queries on composed fact sets                                      *)
(* ===================================================================== *)

Section queries.
Context `{ArithAnalyzer A}.

Lemma CanProve_verdict (self : ConstrSet) (expr : PrimExpr)
      (h : gmap nat A) :
  CanProve self expr h
  = ((analyzer_CanProve expr (replay (constrs_ self) analyzer_new)).1, h).
Proof.
  assert (Hfresh : h !! fresh (dom h) = None)
    by apply not_elem_of_dom, is_fresh.
  destruct self as [cs].
  unfold CanProve, declare_Analyzer, call_CanProve, destroy_Analyzer.
  rewrite ConstrSet_Populate_at, lookup_insert_eq. simpl.
  destruct (analyzer_CanProve expr (replay cs analyzer_new)) as [b a'].
  simpl. f_equal. rewrite delete_insert_eq. by apply delete_insert_id.
Qed.

(** X23.  A query on [Extend a b] is answered by an analyzer that has
    received the facts of [a] and then the facts of [b]; a query on a
    substituted set is answered by an analyzer that has only had the
    substituted generic predicates entered.  Neither query changes the
    analyzers that exist. *)
Theorem CanProve_composes `{Substitution VarMap} (a b : ConstrSet)
        (subs : VarMap) (expr : PrimExpr) (h : gmap nat A) :
  CanProve (Extend a b) expr h
  = ((analyzer_CanProve expr
        (replay (constrs_ b) (replay (constrs_ a) analyzer_new))).1, h) ∧
  CanProve (ConstrSet_Substitute a subs) expr h
  = ((analyzer_CanProve expr
        (enter_substituted (constrs_ a) subs analyzer_new)).1, h).
Proof.
  rewrite !CanProve_verdict. split; f_equal; f_equal; f_equal.
  - assert (E : constrs_ (Extend a b) = constrs_ a ++ constrs_ b).
    { destruct a as [xs], b as [ys]. unfold Extend. simpl.
      rewrite (push_back_fold (λ c, c) xs ys). by rewrite map_id. }
    rewrite E. unfold replay. by rewrite foldl_app.
  - assert (S : constrs_ (ConstrSet_Substitute a subs)
                = map (λ c, Substitute c subs) (constrs_ a)).
    { unfold ConstrSet_Substitute.
      by rewrite (push_back_fold (λ c, Substitute c subs) []). }
    rewrite S. clear S. unfold replay, enter_substituted.
    generalize (@analyzer_new A _). generalize (constrs_ a).
    intros cs. induction cs as [|c cs IH]; intros a0; simpl; [done|].
    by rewrite IH.
Qed.

End queries.


(* ===================================================================== *)
(** ** Branch points at the walkers                                       *)
(* ===================================================================== *)

Lemma framed_events {T} (m : M T) stk :
  framed T m → events m stk = map (shift stk) (events m []).
Proof. intros [_ F]. apply F. Qed.

Lemma framed_returns {T} (m : M T) stk :
  framed T m → returns m stk = returns m [].
Proof. intros [_ F]. unfold returns. by rewrite (proj2 (F stk)). Qed.

(** The log of a bind whose continuation logs [K] whenever it runs. *)
Lemma events_then {T U} (m : M T) (k : T → M U) (K : list event) stk :
  disciplined m → (∀ a, disciplined (k a)) →
  (∀ a, result m stk = Done a → events (k a) stk = K) →
  events (bind m k) stk = events m stk ++ if returns m stk then K else [].
Proof.
  intros Hm Hk HK. rewrite events_bind by done. unfold returns.
  destruct (result m stk) as [a|]; [by rewrite (HK a) | done].
Qed.

(** A guarded block, then either nothing that logs or one more guarded
    block. *)
Lemma branch_pattern {T U} (cond : PrimExpr) (m1 : M T) (k : T → M U)
      (second : option (list event)) stk :
  framed T m1 → (∀ a, disciplined (k a)) →
  (∀ a, events (k a) stk
        = match second with
          | Some L2 =>
              EvPush (Constr_expr (Not cond) false)
                     (stk ++ [Constr_expr (Not cond) false]) ::
              map (shift (stk ++ [Constr_expr (Not cond) false])) L2 ++
              [EvPop stk]
          | None => []
          end) →
  events (a <- scoped (Constr_expr cond false) m1 ;; k a) stk
  = branch_events stk cond (events m1 []) (returns m1 []) second.
Proof.
  intros Fm Hk Hsecond. pose proof Fm as [Dm _].
  rewrite (events_then _ _ _ stk (disciplined_scoped _ _ Dm) Hk
             (λ a _, Hsecond a)).
  rewrite events_scoped by done. unfold returns.
  rewrite result_scoped by done. fold (returns m1 (stk ++ [Constr_expr cond false])).
  rewrite framed_returns, framed_events by done.
  unfold branch_events. simpl. rewrite <- app_assoc. simpl.
  unfold returns. by destruct second, (result m1 []).
Qed.

Lemma second_branch {T U} (c : Constr) (m : M T) (k : T → M U) stk :
  framed T m → (∀ a, disciplined (k a)) → (∀ a, events (k a) stk = []) →
  events (a <- scoped c m ;; k a) stk
  = EvPush c (stk ++ [c]) :: map (shift (stk ++ [c])) (events m []) ++
    [EvPop stk].
Proof.
  intros Fm Hk Hs. pose proof Fm as [Dm _].
  rewrite events_scoped_silent by done. by rewrite framed_events.
Qed.

(** C5.  What either walker logs at a branch point: a [Select] node, an
    if_then_else call, an if/else statement.  After the visit of the node
    (and, in the rewriting walker, the rewriting of the condition on the
    entry stack) the log is [branch_events]: the fact for the true/then
    branch is pushed on the entry stack and stays while that branch is
    walked, every stack seen during that walk being the entry stack, this
    fact, and what the walk of the branch has pushed itself; it is popped,
    the entry stack showing again; only after that pop the negated fact
    is pushed on the entry stack, for the walk of the false/else branch,
    and popped.  So the two facts of one branch point are never on the
    stack together.  The rewriting walker builds both facts from the
    rewritten condition and pushes neither when rewriting the condition
    throws; without an else branch the negated fact is never pushed. *)
Theorem branch_facts_in_turn (c t f : PrimExpr) (rest : list PrimExpr)
        (th : Stmt) (el : option Stmt) (stk : list Constr) :
  let call := Call op_if_then_else (c :: t :: f :: rest) in
  let visitor_value :=
    branch_events stk c (events (ConstrVisitor.VisitExpr t) [])
                  (returns (ConstrVisitor.VisitExpr t) [])
                  (Some (events (ConstrVisitor.VisitExpr f) [])) in
  let mutator_value :=
    map (shift stk) (events (ConstrMutator.VisitExpr c) []) ++
    if returns (ConstrMutator.VisitExpr c) []
    then branch_events stk (normalize c)
                       (events (ConstrMutator.VisitExpr t) [])
                       (returns (ConstrMutator.VisitExpr t) [])
                       (Some (events (ConstrMutator.VisitExpr f) []))
    else [] in
  events (ConstrVisitor.VisitExpr (Select c t f)) stk
  = EvExpr (Select c t f) stk :: visitor_value ∧
  events (ConstrVisitor.VisitExpr call) stk
  = EvExpr call stk :: visitor_value ∧
  events (ConstrVisitor.VisitStmt (IfThenElse c th el)) stk
  = EvStmt (IfThenElse c th el) stk ::
    branch_events stk c (events (ConstrVisitor.VisitStmt th) [])
                  (returns (ConstrVisitor.VisitStmt th) [])
                  ((λ e, events (ConstrVisitor.VisitStmt e) []) <$> el) ∧
  events (ConstrMutator.VisitExpr (Select c t f)) stk
  = EvExpr (Select c t f) stk :: mutator_value ∧
  events (ConstrMutator.VisitExpr call) stk
  = EvExpr call stk :: mutator_value ∧
  events (ConstrMutator.VisitStmt (IfThenElse c th el)) stk
  = EvStmt (IfThenElse c th el) stk ::
    map (shift stk) (events (ConstrMutator.VisitExpr c) []) ++
    if returns (ConstrMutator.VisitExpr c) []
    then branch_events stk (normalize c)
                       (events (ConstrMutator.VisitStmt th) [])
                       (returns (ConstrMutator.VisitStmt th) [])
                       ((λ e, events (ConstrMutator.VisitStmt e) []) <$> el)
    else [].
Proof.
  destruct framed_visits as (FVE & FVS & FME & FMS).
  pose proof visitor_VisitExpr_disciplined as HVE.
  pose proof visitor_VisitStmt_disciplined as HVS.
  pose proof mutator_VisitExpr_disciplined as HME.
  pose proof mutator_VisitStmt_disciplined as HMS.
  assert (Vvalue : events (ConstrVisitor.VisitIfThenElseExpr
                             ConstrVisitor.VisitExpr c t f) stk
                   = branch_events stk c (events (ConstrVisitor.VisitExpr t) [])
                       (returns (ConstrVisitor.VisitExpr t) [])
                       (Some (events (ConstrVisitor.VisitExpr f) []))).
  { unfold ConstrVisitor.VisitIfThenElseExpr.
    apply branch_pattern; [apply FVE | discipline |]. intros _.
    rewrite events_scoped by done. by rewrite framed_events. }
  assert (Mvalue : events (ConstrMutator.VisitIfThenElseExpr
                             ConstrMutator.VisitExpr c t f) stk
                   = map (shift stk) (events (ConstrMutator.VisitExpr c) []) ++
                     if returns (ConstrMutator.VisitExpr c) []
                     then branch_events stk (normalize c)
                            (events (ConstrMutator.VisitExpr t) [])
                            (returns (ConstrMutator.VisitExpr t) [])
                            (Some (events (ConstrMutator.VisitExpr f) []))
                     else []).
  { unfold ConstrMutator.VisitIfThenElseExpr.
    rewrite <- (framed_events _ stk (FME c)), <- (framed_returns _ stk (FME c)).
    apply events_then; [discipline..|]. intros r Hr.
    rewrite (mutator_expr_normal c stk r Hr).
    apply branch_pattern; [apply FME | discipline |]. intros r_t.
    apply second_branch; [apply FME | discipline |].
    intros ?. apply silent_if. }
  cbv zeta. simpl.
  rewrite !head_event;
    try solve [ unfold ConstrVisitor.VisitIfThenElseExpr,
                  ConstrMutator.VisitIfThenElseExpr,
                  ConstrVisitor.VisitStmt_IfThenElse,
                  ConstrMutator.VisitStmt_IfThenElse; discipline ].
  rewrite Vvalue, Mvalue. repeat split.
  - f_equal. unfold ConstrVisitor.VisitStmt_IfThenElse.
    apply branch_pattern; [apply FVS | discipline |]. intros _.
    destruct el as [e|]; simpl; [|done].
    rewrite events_scoped by done. by rewrite framed_events.
  - f_equal. unfold ConstrMutator.VisitStmt_IfThenElse.
    rewrite <- (framed_events _ stk (FME c)), <- (framed_returns _ stk (FME c)).
    apply events_then; [discipline..|]. intros r Hr.
    rewrite (mutator_expr_normal c stk r Hr).
    apply branch_pattern; [apply FMS | discipline |]. intros r_t.
    destruct el as [e|]; simpl; [|apply silent_if].
    apply second_branch; [apply FMS | discipline |].
    intros ?. apply silent_if.
Qed.

(* ===================================================================== *)
(** ** Loops and assertions at the walkers                                *)
(* ===================================================================== *)

Lemma chain_two (A B : list event) (ra : bool) :
  chain [(A, ra); (B, true)] = A ++ if ra then B else [].
Proof. simpl. by rewrite app_nil_r. Qed.

Lemma chain_three (A B C : list event) (ra rb : bool) :
  chain [(A, ra); (B, rb); (C, true)]
  = A ++ if ra then B ++ (if rb then C else []) else [].
Proof. simpl. by rewrite app_nil_r. Qed.

Lemma events_bind_silent {T U} (m : M T) (k : T → M U) stk :
  disciplined m → (∀ a, disciplined (k a)) → (∀ a, events (k a) stk = []) →
  events (bind m k) stk = events m stk.
Proof.
  intros Hm Hk Hs. rewrite events_bind by done.
  destruct (result m stk); by rewrite ?Hs, app_nil_r.
Qed.

Lemma events_two {T U} (m1 : M T) (m2 : M U) stk :
  disciplined m1 → disciplined m2 →
  events (m1 ;; m2) stk
  = chain [(events m1 stk, returns m1 stk); (events m2 stk, true)].
Proof.
  intros H1 H2. rewrite chain_two. by apply events_then.
Qed.

Lemma events_three {T U V} (m1 : M T) (m2 : M U) (m3 : M V) stk :
  disciplined m1 → disciplined m2 → disciplined m3 →
  events (m1 ;; m2 ;; m3) stk
  = chain [ (events m1 stk, returns m1 stk);
            (events m2 stk, returns m2 stk);
            (events m3 stk, true) ].
Proof.
  intros H1 H2 H3. rewrite chain_three.
  apply events_then; [discipline..|]. intros _ _.
  by apply events_then.
Qed.

Lemma returns_then {T U} (m : M T) (k : T → M U) (r : bool) stk :
  disciplined m → (∀ a, disciplined (k a)) →
  (∀ a, result m stk = Done a → returns (k a) stk = r) →
  returns (bind m k) stk = returns m stk && r.
Proof.
  intros Hm Hk Hr. unfold returns at 1 2. rewrite result_bind by done.
  destruct (result m stk) as [a|] eqn:E; [|done].
  rewrite <- (Hr a eq_refl). done.
Qed.

Lemma returns_scoped_eq {T} (c : Constr) (m : M T) stk :
  disciplined m → returns (scoped c m) stk = returns m (stk ++ [c]).
Proof. intros Hm. unfold returns. by rewrite result_scoped. Qed.

Lemma returns_visit {T} (f : list Constr → event) (rest : M T) stk :
  disciplined rest → returns (observe f ;; rest) stk = returns rest stk.
Proof.
  intros Hr. unfold returns, result, bind, observe, start. simpl.
  by rewrite (disciplined_runs rest stk Hr [f stk]), (disciplined_runs rest stk Hr []).
Qed.

Lemma returns_if {T} (b : bool) (x y : T) stk :
  returns (if b then ret x else ret y) stk = true.
Proof. by destruct b. Qed.

(** C7.  What either walker logs at a loop of any kind.  The read-only
    walker pushes the range binding of the loop variable over the bounds
    and, on top of it, the fact extent > 0; with both on the stack it
    walks min, extent and the body; then it pops both.  The rewriting
    walker rewrites min and extent on the entry stack, pushes the same two
    facts built from the rewritten bounds, walks the body under both and
    pops both.  In both walkers the body is walked with exactly these two
    facts above the entry stack.  The kind of the loop has no part in it:
    loops that differ in the kind only give the same log after the visit
    of the loop node itself, and return or throw alike. *)
Theorem loop_walk (v : Var) (mn ext : PrimExpr) (k : ForKind) (body : Stmt)
        (tb : option IterVar) (ann : list (string * PrimExpr))
        (stk : list Constr) :
  let loop := λ kind, For v mn ext kind body tb ann in
  let R := Constr_range v (FromMinExtent mn ext) in
  let B := Constr_expr (ext > IntImm 0)%tir false in
  let R' := Constr_range v (FromMinExtent (normalize mn) (normalize ext)) in
  let B' := Constr_expr (normalize ext > IntImm 0)%tir false in
  events (ConstrVisitor.VisitStmt (loop k)) stk
  = EvStmt (loop k) stk ::
    EvPush R (stk ++ [R]) :: EvPush B (stk ++ [R; B]) ::
    chain [ (events (ConstrVisitor.VisitExpr mn) (stk ++ [R; B]),
             returns (ConstrVisitor.VisitExpr mn) (stk ++ [R; B]));
            (events (ConstrVisitor.VisitExpr ext) (stk ++ [R; B]),
             returns (ConstrVisitor.VisitExpr ext) (stk ++ [R; B]));
            (events (ConstrVisitor.VisitStmt body) (stk ++ [R; B]), true) ] ++
    [EvPop (stk ++ [R]); EvPop stk] ∧
  events (ConstrMutator.VisitStmt (loop k)) stk
  = EvStmt (loop k) stk ::
    chain [ (events (ConstrMutator.VisitExpr mn) stk,
             returns (ConstrMutator.VisitExpr mn) stk);
            (events (ConstrMutator.VisitExpr ext) stk,
             returns (ConstrMutator.VisitExpr ext) stk);
            (EvPush R' (stk ++ [R']) :: EvPush B' (stk ++ [R'; B']) ::
             events (ConstrMutator.VisitStmt body) (stk ++ [R'; B']) ++
             [EvPop (stk ++ [R']); EvPop stk], true) ] ∧
  ∀ k' : ForKind,
    drop 1 (events (ConstrVisitor.VisitStmt (loop k')) stk)
    = drop 1 (events (ConstrVisitor.VisitStmt (loop k)) stk) ∧
    drop 1 (events (ConstrMutator.VisitStmt (loop k')) stk)
    = drop 1 (events (ConstrMutator.VisitStmt (loop k)) stk) ∧
    returns (ConstrVisitor.VisitStmt (loop k')) stk
    = returns (ConstrVisitor.VisitStmt (loop k)) stk ∧
    returns (ConstrMutator.VisitStmt (loop k')) stk
    = returns (ConstrMutator.VisitStmt (loop k)) stk.
Proof.
  pose proof visitor_VisitExpr_disciplined as HVE.
  pose proof visitor_VisitStmt_disciplined as HVS.
  pose proof mutator_VisitExpr_disciplined as HME.
  pose proof mutator_VisitStmt_disciplined as HMS.
  intros loop R B R' B'.
  assert (Hv : ∀ kind, events (ConstrVisitor.VisitStmt (loop kind)) stk
    = EvStmt (loop kind) stk ::
      EvPush R (stk ++ [R]) :: EvPush B (stk ++ [R; B]) ::
      chain [ (events (ConstrVisitor.VisitExpr mn) (stk ++ [R; B]),
               returns (ConstrVisitor.VisitExpr mn) (stk ++ [R; B]));
              (events (ConstrVisitor.VisitExpr ext) (stk ++ [R; B]),
               returns (ConstrVisitor.VisitExpr ext) (stk ++ [R; B]));
              (events (ConstrVisitor.VisitStmt body) (stk ++ [R; B]), true) ] ++
      [EvPop (stk ++ [R]); EvPop stk]).
  { intros kind. unfold loop.
    change (ConstrVisitor.VisitStmt (For v mn ext kind body tb ann))
      with (observe (EvStmt (For v mn ext kind body tb ann)) ;;
            ConstrVisitor.VisitStmt_For ConstrVisitor.VisitExpr
              ConstrVisitor.VisitStmt v mn ext kind body).
    rewrite head_event
      by (unfold ConstrVisitor.VisitStmt_For,
            ConstrVisitor.Base_VisitStmt_For; discipline).
    f_equal.
    assert (Hboth : events
              (scoped R (scoped B (ConstrVisitor.Base_VisitStmt_For
                 ConstrVisitor.VisitExpr ConstrVisitor.VisitStmt mn ext body)))
              stk
            = EvPush R (stk ++ [R]) :: EvPush B (stk ++ [R; B]) ::
              chain [ (events (ConstrVisitor.VisitExpr mn) (stk ++ [R; B]),
                       returns (ConstrVisitor.VisitExpr mn) (stk ++ [R; B]));
                      (events (ConstrVisitor.VisitExpr ext) (stk ++ [R; B]),
                       returns (ConstrVisitor.VisitExpr ext) (stk ++ [R; B]));
                      (events (ConstrVisitor.VisitStmt body) (stk ++ [R; B]),
                       true) ] ++
              [EvPop (stk ++ [R]); EvPop stk]).
    { unfold ConstrVisitor.Base_VisitStmt_For.
      rewrite !events_scoped by discipline. rewrite two_guards.
      rewrite events_three by done.
      simpl. f_equal. f_equal. by rewrite <- app_assoc. }
    unfold ConstrVisitor.VisitStmt_For. by destruct kind. }
  assert (Hm : ∀ kind, events (ConstrMutator.VisitStmt (loop kind)) stk
    = EvStmt (loop kind) stk ::
      chain [ (events (ConstrMutator.VisitExpr mn) stk,
               returns (ConstrMutator.VisitExpr mn) stk);
              (events (ConstrMutator.VisitExpr ext) stk,
               returns (ConstrMutator.VisitExpr ext) stk);
              (EvPush R' (stk ++ [R']) :: EvPush B' (stk ++ [R'; B']) ::
               events (ConstrMutator.VisitStmt body) (stk ++ [R'; B']) ++
               [EvPop (stk ++ [R']); EvPop stk], true) ]).
  { intros kind. unfold loop.
    change (ConstrMutator.VisitStmt (For v mn ext kind body tb ann))
      with (observe (EvStmt (For v mn ext kind body tb ann)) ;;
            ConstrMutator.VisitStmt_For ConstrMutator.VisitExpr
              ConstrMutator.VisitStmt v mn ext kind body tb ann).
    rewrite head_event by (unfold ConstrMutator.VisitStmt_For; discipline).
    f_equal. rewrite chain_three. unfold ConstrMutator.VisitStmt_For.
    apply events_then; [discipline..|]. intros r_min Hmin.
    apply events_then; [discipline..|]. intros r_ext Hext.
    cbv zeta.
    rewrite (mutator_expr_normal mn stk r_min Hmin),
            (mutator_expr_normal ext stk r_ext Hext).
    fold R' B'.
    assert (Hboth : ∀ T (k : ConstrMutator.Rewritten Stmt → M T),
              (∀ a, disciplined (k a)) → (∀ a, events (k a) stk = []) →
              events (r <- scoped R' (scoped B' (ConstrMutator.VisitStmt body)) ;;
                      k r) stk
              = EvPush R' (stk ++ [R']) :: EvPush B' (stk ++ [R'; B']) ::
                events (ConstrMutator.VisitStmt body) (stk ++ [R'; B']) ++
                [EvPop (stk ++ [R']); EvPop stk]).
    { intros T k0 Hk Hs. rewrite events_scoped_silent by discipline.
      rewrite events_scoped by done. rewrite two_guards.
      simpl. f_equal. f_equal. by rewrite <- app_assoc. }
    destruct kind; apply Hboth; intros; try apply silent_if; discipline. }
  assert (Rv : ∀ kind, returns (ConstrVisitor.VisitStmt (loop kind)) stk
    = returns (ConstrVisitor.Base_VisitStmt_For ConstrVisitor.VisitExpr
                 ConstrVisitor.VisitStmt mn ext body) (stk ++ [R; B])).
  { intros kind. unfold loop.
    change (ConstrVisitor.VisitStmt (For v mn ext kind body tb ann))
      with (observe (EvStmt (For v mn ext kind body tb ann)) ;;
            ConstrVisitor.VisitStmt_For ConstrVisitor.VisitExpr
              ConstrVisitor.VisitStmt v mn ext kind body).
    rewrite returns_visit
      by (unfold ConstrVisitor.VisitStmt_For,
            ConstrVisitor.Base_VisitStmt_For; discipline).
    rewrite <- two_guards.
    rewrite <- !returns_scoped_eq
      by (unfold ConstrVisitor.Base_VisitStmt_For; discipline).
    unfold ConstrVisitor.VisitStmt_For. by destruct kind. }
  assert (Rm : ∀ kind, returns (ConstrMutator.VisitStmt (loop kind)) stk
    = returns (ConstrMutator.VisitExpr mn) stk &&
      (returns (ConstrMutator.VisitExpr ext) stk &&
       (returns (ConstrMutator.VisitStmt body) (stk ++ [R'; B']) && true))).
  { intros kind. unfold loop.
    change (ConstrMutator.VisitStmt (For v mn ext kind body tb ann))
      with (observe (EvStmt (For v mn ext kind body tb ann)) ;;
            ConstrMutator.VisitStmt_For ConstrMutator.VisitExpr
              ConstrMutator.VisitStmt v mn ext kind body tb ann).
    rewrite returns_visit by (unfold ConstrMutator.VisitStmt_For; discipline).
    unfold ConstrMutator.VisitStmt_For.
    apply returns_then; [discipline..|]. intros r_min Hmin.
    apply returns_then; [discipline..|]. intros r_ext Hext.
    cbv zeta.
    rewrite (mutator_expr_normal mn stk r_min Hmin),
            (mutator_expr_normal ext stk r_ext Hext).
    fold R' B'. rewrite <- two_guards.
    rewrite <- !returns_scoped_eq by discipline.
    destruct kind; (apply returns_then; [discipline..|]); intros;
      apply returns_if. }
  split; [apply Hv|]. split; [apply Hm|]. intros k'.
  rewrite !Hv, !Hm, !Rv, !Rm. done.
Qed.

(** C4 (amended).  What the walkers do at an assertion whose walk returns.
    The read-only walker pushes the fact [condition] right after the
    visit of the statement and pops it at the end; the message and the
    body are walked with that fact on the stack.  The rewriting walker
    first rewrites the condition on the stack the statement was entered
    with, then pushes the rewritten condition as the fact; the message
    and the body are walked with that fact on the stack, and it is popped
    at the end. *)
Theorem assert_walk (c m : PrimExpr) (body : Stmt) (stk : list Constr) :
  let a := AssertStmt c m body in
  let F := Constr_expr c false in
  let F' := Constr_expr (normalize c) false in
  let Lv := events (ConstrVisitor.VisitStmt a) stk in
  let Lm := events (ConstrMutator.VisitStmt a) stk in
  (returns (ConstrVisitor.VisitStmt a) stk = true →
   Lv = EvStmt a stk :: EvPush F (stk ++ [F]) ::
        events (ConstrVisitor.VisitExpr c) (stk ++ [F]) ++
        events (ConstrVisitor.VisitExpr m) (stk ++ [F]) ++
        events (ConstrVisitor.VisitStmt body) (stk ++ [F]) ++ [EvPop stk] ∧
   visited_expr Lv m (stk ++ [F]) ∧
   visited_stmt Lv body (stk ++ [F])) ∧
  (returns (ConstrMutator.VisitStmt a) stk = true →
   Lm = EvStmt a stk :: events (ConstrMutator.VisitExpr c) stk ++
        EvPush F' (stk ++ [F']) ::
        events (ConstrMutator.VisitExpr m) (stk ++ [F']) ++
        events (ConstrMutator.VisitStmt body) (stk ++ [F']) ++ [EvPop stk] ∧
   visited_expr Lm c stk ∧
   visited_expr Lm m (stk ++ [F']) ∧
   visited_stmt Lm body (stk ++ [F'])).
Proof.
  pose proof visitor_VisitExpr_disciplined as HVE.
  pose proof visitor_VisitStmt_disciplined as HVS.
  pose proof mutator_VisitExpr_disciplined as HME.
  pose proof mutator_VisitStmt_disciplined as HMS.
  intros a F F' Lv Lm. split.
  - intros Hret. subst Lv. unfold a in *.
    change (ConstrVisitor.VisitStmt (AssertStmt c m body))
      with (observe (EvStmt (AssertStmt c m body)) ;;
            ConstrVisitor.VisitStmt_AssertStmt ConstrVisitor.VisitExpr
              ConstrVisitor.VisitStmt c m body) in *.
    unfold ConstrVisitor.VisitStmt_AssertStmt,
      ConstrVisitor.Base_VisitStmt_AssertStmt in *.
    rewrite returns_visit in Hret by discipline.
    rewrite returns_scoped_eq in Hret by discipline. fold F in Hret.
    rewrite (returns_then _ _
               (returns (ConstrVisitor.VisitExpr m) (stk ++ [F]) &&
                returns (ConstrVisitor.VisitStmt body) (stk ++ [F])))
      in Hret; [|discipline..|].
    2:{ intros _ _. by apply returns_then; [discipline..|]. }
    apply andb_prop in Hret as [Hc Hmb]. apply andb_prop in Hmb as [Hmsg _].
    rewrite head_event by discipline.
    rewrite events_scoped by discipline. fold F.
    rewrite events_three by done. rewrite chain_three, Hc, Hmsg.
    destruct (visitor_VisitExpr_head m (stk ++ [F])) as [Lmsg Emsg].
    destruct (visitor_VisitStmt_head body (stk ++ [F])) as [Lbody Ebody].
    split; [by rewrite <- !app_assoc|].
    unfold visited_expr, visited_stmt. rewrite Emsg, Ebody.
    split; find_elem.
  - intros Hret. subst Lm. unfold a in *.
    change (ConstrMutator.VisitStmt (AssertStmt c m body))
      with (observe (EvStmt (AssertStmt c m body)) ;;
            ConstrMutator.VisitStmt_AssertStmt ConstrMutator.VisitExpr
              ConstrMutator.VisitStmt c m body) in *.
    unfold ConstrMutator.VisitStmt_AssertStmt in *.
    rewrite returns_visit in Hret by discipline.
    apply returns_done in Hret as [r Hres].
    apply result_done_bind in Hres as (r_c & Hc & Hres); [|discipline..].
    cbv zeta in Hres.
    rewrite (mutator_expr_normal c stk r_c Hc) in Hres. fold F' in Hres.
    rewrite result_scoped in Hres by discipline.
    apply result_done_bind in Hres as (r_m & Hmsg & Hres); [|discipline..].
    rewrite head_event by discipline.
    rewrite events_bind by discipline. rewrite Hc. cbv zeta.
    rewrite (mutator_expr_normal c stk r_c Hc). fold F'.
    rewrite events_scoped by discipline.
    rewrite events_bind by discipline. rewrite Hmsg.
    rewrite events_bind_silent; [|discipline..|intros; apply silent_if].
    destruct (mutator_VisitExpr_head c stk) as [Lc Ec].
    destruct (mutator_VisitExpr_head m (stk ++ [F'])) as [Lmsg Emsg].
    destruct (mutator_VisitStmt_head body (stk ++ [F'])) as [Lbody Ebody].
    split; [by rewrite <- !app_assoc|].
    unfold visited_expr, visited_stmt. rewrite Ec, Emsg, Ebody.
    repeat split; find_elem.
Qed.

Lemma assert_walk_witness :
  let a := AssertStmt Examples.x_positive Examples.message
                      (Evaluate (EVar Examples.x)) in
  let F := Constr_expr Examples.x_positive false in
  visited_expr (events (ConstrVisitor.VisitStmt a) []) Examples.message [F] ∧
  visited_expr (events (ConstrMutator.VisitStmt a) []) Examples.message [F].
Proof.
  destruct (assert_walk Examples.x_positive Examples.message
              (Evaluate (EVar Examples.x)) []) as [Hv Hm].
  split.
  - exact (proj1 (proj2 (Hv eq_refl))).
  - exact (proj1 (proj2 (proj2 (Hm eq_refl)))).
Defined.

(* ===================================================================== *)
(** ** Attributes, bindings, while loops and if/else at the walkers       *)
(* ===================================================================== *)

(** Splits a computation that begins with a downcast. *)
Ltac fold_discipline_attr :=
  unfold Downcast_PrimExpr, Downcast_IterVar; discipline.

(** X12.  An attribute whose payload is not of the type its key is
    downcast to makes both walkers throw at that node without pushing a
    fact.  The read-only walker throws right after the visit of the node,
    before the value or the body is looked at; the rewriting walker
    throws only after it has rewritten the value and the body on the
    entry stack. *)
Theorem attr_payload_mismatch_throws (node : ObjectRef) (key : AttrKey)
        (value : PrimExpr) (body : Stmt) (stk : list Constr) :
  payload_ok key node = false →
  let a := AttrStmt node key value body in
  result (ConstrVisitor.VisitStmt a) stk = Throw ∧
  events (ConstrVisitor.VisitStmt a) stk = [EvStmt a stk] ∧
  result (ConstrMutator.VisitStmt a) stk = Throw ∧
  events (ConstrMutator.VisitStmt a) stk
  = EvStmt a stk ::
    chain [ (events (ConstrMutator.VisitExpr value) stk,
             returns (ConstrMutator.VisitExpr value) stk);
            (events (ConstrMutator.VisitStmt body) stk, true) ].
Proof.
  pose proof mutator_VisitExpr_disciplined as HME.
  pose proof mutator_VisitStmt_disciplined as HMS.
  intros Hbad a.
  assert (Hm : disciplined (ConstrMutator.VisitStmt_AttrStmt
                 ConstrMutator.VisitExpr ConstrMutator.VisitStmt
                 node key value body)).
  { unfold ConstrMutator.VisitStmt_AttrStmt, Downcast_PrimExpr,
      Downcast_IterVar. discipline. }
  assert (Hthrow : ∀ r_value r_body,
    result
      (match key with
       | tilelang_assume =>
           expr <- Downcast_PrimExpr node ;;
           scoped (Constr_expr expr true) (ret tt)
       | thread_extent | virtual_thread =>
           iv <- Downcast_IterVar node ;;
           scoped (Constr_range (var iv)
                     (FromMinExtent make_zero
                        (ConstrMutator.deref r_value value))) (ret tt)
       | other_key _ => ret tt
       end ;;
       if ConstrMutator.same_as r_value && ConstrMutator.same_as r_body
       then ret ConstrMutator.SameObject
       else ret (ConstrMutator.NewObject
                   (AttrStmt node key (ConstrMutator.deref r_value value)
                             (ConstrMutator.deref r_body body)))) stk = Throw ∧
    events
      (match key with
       | tilelang_assume =>
           expr <- Downcast_PrimExpr node ;;
           scoped (Constr_expr expr true) (ret tt)
       | thread_extent | virtual_thread =>
           iv <- Downcast_IterVar node ;;
           scoped (Constr_range (var iv)
                     (FromMinExtent make_zero
                        (ConstrMutator.deref r_value value))) (ret tt)
       | other_key _ => ret tt
       end ;;
       if ConstrMutator.same_as r_value && ConstrMutator.same_as r_body
       then ret ConstrMutator.SameObject
       else ret (ConstrMutator.NewObject
                   (AttrStmt node key (ConstrMutator.deref r_value value)
                             (ConstrMutator.deref r_body body)))) stk = []).
  { intros r_value r_body. by destruct key, node. }
  repeat split.
  - by destruct key, node.
  - by destruct key, node.
  - unfold a.
    change (ConstrMutator.VisitStmt (AttrStmt node key value body))
      with (observe (EvStmt (AttrStmt node key value body)) ;;
            ConstrMutator.VisitStmt_AttrStmt ConstrMutator.VisitExpr
              ConstrMutator.VisitStmt node key value body).
    assert (R : returns (observe (EvStmt (AttrStmt node key value body)) ;;
                   ConstrMutator.VisitStmt_AttrStmt ConstrMutator.VisitExpr
                     ConstrMutator.VisitStmt node key value body) stk = false).
    { rewrite returns_visit by done.
      unfold ConstrMutator.VisitStmt_AttrStmt, returns.
      rewrite result_bind; [|done|intros ?; fold_discipline_attr].
      destruct (result (ConstrMutator.VisitExpr value) stk) as [r_value|];
        [|done].
      cbv zeta. rewrite result_bind; [|done|intros ?; fold_discipline_attr].
      destruct (result (ConstrMutator.VisitStmt body) stk) as [r_body|];
        [|done].
      by rewrite (proj1 (Hthrow r_value r_body)). }
    unfold returns in R.
    by destruct (result _ stk).
  - unfold a.
    change (ConstrMutator.VisitStmt (AttrStmt node key value body))
      with (observe (EvStmt (AttrStmt node key value body)) ;;
            ConstrMutator.VisitStmt_AttrStmt ConstrMutator.VisitExpr
              ConstrMutator.VisitStmt node key value body).
    rewrite head_event by done. f_equal. rewrite chain_two.
    unfold ConstrMutator.VisitStmt_AttrStmt.
    apply events_then; [done|intros ?; fold_discipline_attr|].
    intros r_value _. cbv zeta.
    apply events_bind_silent; [done|intros ?; fold_discipline_attr|].
    intros r_body. apply Hthrow.
Qed.

Lemma attr_payload_mismatch_throws_witness :
  let a := AttrStmt (ObjString "tx") thread_extent (EVar Examples.n)
                    (Evaluate (EVar Examples.x)) in
  result (ConstrVisitor.VisitStmt a) [] = Throw ∧
  result (ConstrMutator.VisitStmt a) [] = Throw.
Proof.
  destruct (attr_payload_mismatch_throws (ObjString "tx") thread_extent
              (EVar Examples.n) (Evaluate (EVar Examples.x)) [] eq_refl)
    as (Hv & _ & Hm & _).
  split; [exact Hv | exact Hm].
Defined.

(** X13.  What the read-only walker logs at an attribute whose payload
    has the type its key asks for.  Under the assume key it pushes
    Constr(expr, is_assume = true) for the attached expression, under
    thread_extent and virtual_thread alike the range binding of the
    iteration variable over [0, value); with that fact on the stack it
    walks the value and then the body, and pops the fact.  Under any
    other key it walks the value and the body on the entry stack and
    pushes nothing, whatever the payload. *)
Theorem visitor_attr_walk (value : PrimExpr) (body : Stmt)
        (stk : list Constr) :
  let under (a : Stmt) (F : Constr) :=
    EvStmt a stk :: EvPush F (stk ++ [F]) ::
    chain [ (events (ConstrVisitor.VisitExpr value) (stk ++ [F]),
             returns (ConstrVisitor.VisitExpr value) (stk ++ [F]));
            (events (ConstrVisitor.VisitStmt body) (stk ++ [F]), true) ] ++
    [EvPop stk] in
  (∀ e : PrimExpr,
     let a := AttrStmt (ObjPrimExpr e) tilelang_assume value body in
     events (ConstrVisitor.VisitStmt a) stk = under a (Constr_expr e true)) ∧
  (∀ iv : IterVar,
     let range := Constr_range (var iv) (FromMinExtent make_zero value) in
     let a := AttrStmt (ObjIterVar iv) thread_extent value body in
     let b := AttrStmt (ObjIterVar iv) virtual_thread value body in
     events (ConstrVisitor.VisitStmt a) stk = under a range ∧
     events (ConstrVisitor.VisitStmt b) stk = under b range) ∧
  (∀ (node : ObjectRef) (key : string),
     let a := AttrStmt node (other_key key) value body in
     events (ConstrVisitor.VisitStmt a) stk
     = EvStmt a stk ::
       chain [ (events (ConstrVisitor.VisitExpr value) stk,
                returns (ConstrVisitor.VisitExpr value) stk);
               (events (ConstrVisitor.VisitStmt body) stk, true) ]).
Proof.
  pose proof visitor_VisitExpr_disciplined as HVE.
  pose proof visitor_VisitStmt_disciplined as HVS.
  assert (Hunder : ∀ a F,
    events (observe (EvStmt a) ;;
            scoped F (ConstrVisitor.Base_VisitStmt_AttrStmt
                        ConstrVisitor.VisitExpr ConstrVisitor.VisitStmt
                        value body)) stk
    = EvStmt a stk :: EvPush F (stk ++ [F]) ::
      chain [ (events (ConstrVisitor.VisitExpr value) (stk ++ [F]),
               returns (ConstrVisitor.VisitExpr value) (stk ++ [F]));
              (events (ConstrVisitor.VisitStmt body) (stk ++ [F]), true) ] ++
      [EvPop stk]).
  { intros a F. unfold ConstrVisitor.Base_VisitStmt_AttrStmt.
    rewrite head_event by discipline. rewrite events_scoped by discipline.
    by rewrite events_two by done. }
  intros under. repeat split.
  - intros e. apply Hunder.
  - apply Hunder.
  - apply Hunder.
  - intros node key a. unfold a.
    change (ConstrVisitor.VisitStmt (AttrStmt node (other_key key) value body))
      with (observe (EvStmt (AttrStmt node (other_key key) value body)) ;;
            ConstrVisitor.Base_VisitStmt_AttrStmt ConstrVisitor.VisitExpr
              ConstrVisitor.VisitStmt value body).
    unfold ConstrVisitor.Base_VisitStmt_AttrStmt.
    rewrite head_event by discipline. by rewrite events_two by done.
Qed.

(** X14.  What the walkers log at a let statement.  The read-only walker
    pushes the binding var = value right after the visit of the
    statement, walks the value itself and then the body with the binding
    on the stack, and pops it.  The rewriting walker rewrites the value on
    the entry stack first; only when that returns it pushes the binding
    of var to the rewritten value, walks the body under it and pops it. *)
Theorem let_walk (v : Var) (value : PrimExpr) (body : Stmt)
        (stk : list Constr) :
  let l := LetStmt v value body in
  let F := Constr_value v value in
  let F' := Constr_value v (normalize value) in
  events (ConstrVisitor.VisitStmt l) stk
  = EvStmt l stk :: EvPush F (stk ++ [F]) ::
    chain [ (events (ConstrVisitor.VisitExpr value) (stk ++ [F]),
             returns (ConstrVisitor.VisitExpr value) (stk ++ [F]));
            (events (ConstrVisitor.VisitStmt body) (stk ++ [F]), true) ] ++
    [EvPop stk] ∧
  events (ConstrMutator.VisitStmt l) stk
  = EvStmt l stk ::
    chain [ (events (ConstrMutator.VisitExpr value) stk,
             returns (ConstrMutator.VisitExpr value) stk);
            (EvPush F' (stk ++ [F']) ::
             events (ConstrMutator.VisitStmt body) (stk ++ [F']) ++
             [EvPop stk], true) ].
Proof.
  pose proof visitor_VisitExpr_disciplined as HVE.
  pose proof visitor_VisitStmt_disciplined as HVS.
  pose proof mutator_VisitExpr_disciplined as HME.
  pose proof mutator_VisitStmt_disciplined as HMS.
  intros l F F'. unfold l. split.
  - change (ConstrVisitor.VisitStmt (LetStmt v value body))
      with (observe (EvStmt (LetStmt v value body)) ;;
            ConstrVisitor.VisitStmt_LetStmt ConstrVisitor.VisitExpr
              ConstrVisitor.VisitStmt v value body).
    unfold ConstrVisitor.VisitStmt_LetStmt,
      ConstrVisitor.Base_VisitStmt_LetStmt.
    rewrite head_event by discipline. rewrite events_scoped by discipline.
    by rewrite events_two by done.
  - change (ConstrMutator.VisitStmt (LetStmt v value body))
      with (observe (EvStmt (LetStmt v value body)) ;;
            ConstrMutator.VisitStmt_LetStmt ConstrMutator.VisitExpr
              ConstrMutator.VisitStmt v value body).
    unfold ConstrMutator.VisitStmt_LetStmt.
    rewrite head_event by discipline. f_equal. rewrite chain_two.
    apply events_then; [discipline..|]. intros r Hr. cbv zeta.
    rewrite (mutator_expr_normal value stk r Hr). fold F'.
    rewrite events_scoped by discipline.
    by rewrite events_bind_silent;
      [|discipline..|intros; apply silent_if].
Qed.

(** X15.  What the walkers log at a while loop.  The read-only walker
    pushes the condition, walks the body under it and pops it; the
    condition itself is not walked: the expressions the walk visits are
    those of the body's walk.  The rewriting walker rewrites the
    condition on the entry stack first; only when that returns it pushes
    the rewritten condition, walks the body under it and pops it. *)
Theorem while_walk (c : PrimExpr) (body : Stmt) (stk : list Constr) :
  let w := While c body in
  let F := Constr_expr c false in
  let F' := Constr_expr (normalize c) false in
  events (ConstrVisitor.VisitStmt w) stk
  = EvStmt w stk :: EvPush F (stk ++ [F]) ::
    events (ConstrVisitor.VisitStmt body) (stk ++ [F]) ++ [EvPop stk] ∧
  visited_exprs (events (ConstrVisitor.VisitStmt w) stk)
  = visited_exprs (events (ConstrVisitor.VisitStmt body) (stk ++ [F])) ∧
  events (ConstrMutator.VisitStmt w) stk
  = EvStmt w stk ::
    chain [ (events (ConstrMutator.VisitExpr c) stk,
             returns (ConstrMutator.VisitExpr c) stk);
            (EvPush F' (stk ++ [F']) ::
             events (ConstrMutator.VisitStmt body) (stk ++ [F']) ++
             [EvPop stk], true) ].
Proof.
  pose proof visitor_VisitStmt_disciplined as HVS.
  pose proof mutator_VisitExpr_disciplined as HME.
  pose proof mutator_VisitStmt_disciplined as HMS.
  intros w F F'. unfold w.
  assert (Hv : events (ConstrVisitor.VisitStmt (While c body)) stk
               = EvStmt (While c body) stk :: EvPush F (stk ++ [F]) ::
                 events (ConstrVisitor.VisitStmt body) (stk ++ [F]) ++
                 [EvPop stk]).
  { change (ConstrVisitor.VisitStmt (While c body))
      with (observe (EvStmt (While c body)) ;;
            ConstrVisitor.VisitStmt_While ConstrVisitor.VisitStmt c body).
    unfold ConstrVisitor.VisitStmt_While.
    rewrite head_event by discipline. by rewrite events_scoped by discipline. }
  split; [exact Hv|]. split.
  - rewrite Hv.
    change (EvStmt (While c body) stk :: EvPush F (stk ++ [F]) ::
            events (ConstrVisitor.VisitStmt body) (stk ++ [F]) ++ [EvPop stk])
      with ([EvStmt (While c body) stk; EvPush F (stk ++ [F])] ++
            events (ConstrVisitor.VisitStmt body) (stk ++ [F]) ++ [EvPop stk]).
    rewrite !visited_exprs_app. simpl. by rewrite app_nil_r.
  - change (ConstrMutator.VisitStmt (While c body))
      with (observe (EvStmt (While c body)) ;;
            ConstrMutator.VisitStmt_While ConstrMutator.VisitExpr
              ConstrMutator.VisitStmt c body).
    unfold ConstrMutator.VisitStmt_While.
    rewrite head_event by discipline. f_equal. rewrite chain_two.
    apply events_then; [discipline..|]. intros r Hr. cbv zeta.
    rewrite (mutator_expr_normal c stk r Hr). fold F'.
    by rewrite events_scoped_silent;
      [|discipline..|intros; apply silent_if].
Qed.

(** X22.  The walk of an if/else statement with the stacks written out,
    and when it returns.  The read-only walker walks the then branch on
    the entry stack with the condition on top; only if that returns, and
    only if there is an else branch, it walks the else branch on the
    entry stack with the negated condition on top; the statement returns
    exactly when every branch walked returns.  The rewriting walker
    rewrites the condition on the entry stack first and continues in the
    same way with the rewritten condition and its negation; it returns
    exactly when the condition and every branch walked return. *)
Theorem if_else_walk (c : PrimExpr) (th : Stmt) (el : option Stmt)
        (stk : list Constr) :
  let s := IfThenElse c th el in
  let C := Constr_expr c false in
  let N := Constr_expr (Not c) false in
  let C' := Constr_expr (normalize c) false in
  let N' := Constr_expr (Not (normalize c)) false in
  events (ConstrVisitor.VisitStmt s) stk
  = EvStmt s stk ::
    chain ((EvPush C (stk ++ [C]) ::
            events (ConstrVisitor.VisitStmt th) (stk ++ [C]) ++ [EvPop stk],
            returns (ConstrVisitor.VisitStmt th) (stk ++ [C])) ::
           match el with
           | Some e =>
               [(EvPush N (stk ++ [N]) ::
                 events (ConstrVisitor.VisitStmt e) (stk ++ [N]) ++
                 [EvPop stk], true)]
           | None => []
           end) ∧
  returns (ConstrVisitor.VisitStmt s) stk
  = returns (ConstrVisitor.VisitStmt th) (stk ++ [C]) &&
    match el with
    | Some e => returns (ConstrVisitor.VisitStmt e) (stk ++ [N])
    | None => true
    end ∧
  events (ConstrMutator.VisitStmt s) stk
  = EvStmt s stk ::
    chain ((events (ConstrMutator.VisitExpr c) stk,
            returns (ConstrMutator.VisitExpr c) stk) ::
           (EvPush C' (stk ++ [C']) ::
            events (ConstrMutator.VisitStmt th) (stk ++ [C']) ++ [EvPop stk],
            returns (ConstrMutator.VisitStmt th) (stk ++ [C'])) ::
           match el with
           | Some e =>
               [(EvPush N' (stk ++ [N']) ::
                 events (ConstrMutator.VisitStmt e) (stk ++ [N']) ++
                 [EvPop stk], true)]
           | None => []
           end) ∧
  returns (ConstrMutator.VisitStmt s) stk
  = returns (ConstrMutator.VisitExpr c) stk &&
    (returns (ConstrMutator.VisitStmt th) (stk ++ [C']) &&
     match el with
     | Some e => returns (ConstrMutator.VisitStmt e) (stk ++ [N'])
     | None => true
     end).
Proof.
  pose proof visitor_VisitStmt_disciplined as HVS.
  pose proof mutator_VisitExpr_disciplined as HME.
  pose proof mutator_VisitStmt_disciplined as HMS.
  intros s C N C' N'. unfold s.
  change (ConstrVisitor.VisitStmt (IfThenElse c th el))
    with (observe (EvStmt (IfThenElse c th el)) ;;
          ConstrVisitor.VisitStmt_IfThenElse ConstrVisitor.VisitStmt c th el).
  change (ConstrMutator.VisitStmt (IfThenElse c th el))
    with (observe (EvStmt (IfThenElse c th el)) ;;
          ConstrMutator.VisitStmt_IfThenElse ConstrMutator.VisitExpr
            ConstrMutator.VisitStmt c th el).
  unfold ConstrVisitor.VisitStmt_IfThenElse,
    ConstrMutator.VisitStmt_IfThenElse.
  rewrite !head_event by discipline. rewrite !returns_visit by discipline.
  fold C N. repeat split.
  - f_equal.
    rewrite (events_then _ _
               (match el with
                | Some e => EvPush N (stk ++ [N]) ::
                            events (ConstrVisitor.VisitStmt e) (stk ++ [N]) ++
                            [EvPop stk]
                | None => []
                end) stk); [|discipline..|].
    + rewrite events_scoped, returns_scoped_eq by done.
      simpl. destruct el; simpl; by rewrite ?app_nil_r.
    + intros _ _. destruct el; [by rewrite events_scoped|done].
  - rewrite (returns_then _ _
               (match el with
                | Some e => returns (ConstrVisitor.VisitStmt e) (stk ++ [N])
                | None => true
                end) stk); [|discipline..|].
    + by rewrite returns_scoped_eq.
    + intros _ _. destruct el; [by rewrite returns_scoped_eq|done].
  - f_equal.
    rewrite (events_then _ _
               (chain ((EvPush C' (stk ++ [C']) ::
                        events (ConstrMutator.VisitStmt th) (stk ++ [C']) ++
                        [EvPop stk],
                        returns (ConstrMutator.VisitStmt th) (stk ++ [C'])) ::
                       match el with
                       | Some e =>
                           [(EvPush N' (stk ++ [N']) ::
                             events (ConstrMutator.VisitStmt e) (stk ++ [N']) ++
                             [EvPop stk], true)]
                       | None => []
                       end)) stk); [|discipline..|].
    + simpl. by destruct (returns (ConstrMutator.VisitExpr c) stk).
    + intros r Hr. cbv zeta.
      rewrite (mutator_expr_normal c stk r Hr). fold C' N'.
      rewrite (events_then _ _
                 (match el with
                  | Some e => EvPush N' (stk ++ [N']) ::
                              events (ConstrMutator.VisitStmt e) (stk ++ [N']) ++
                              [EvPop stk]
                  | None => []
                  end) stk); [|discipline..|].
      * rewrite events_scoped, returns_scoped_eq by done.
        simpl. destruct el; simpl; by rewrite ?app_nil_r.
      * intros r_t _. destruct el.
        -- by rewrite events_scoped_silent;
             [|discipline..|intros; apply silent_if].
        -- apply silent_if.
  - apply returns_then; [discipline..|]. intros r Hr. cbv zeta.
    rewrite (mutator_expr_normal c stk r Hr). fold C' N'.
    rewrite <- returns_scoped_eq by done.
    apply returns_then; [discipline..|]. intros r_t _.
    destruct el as [e|].
    + rewrite <- (andb_true_r (returns (ConstrMutator.VisitStmt e) _)).
      rewrite <- returns_scoped_eq by done.
      apply returns_then; [discipline..|]. intros; apply returns_if.
    + apply returns_if.
Qed.
